(** * OpenTTD [src/core/enum_type.hpp]: enum helpers and [EnumBitSet]

    A shallow embedding of the increment/decrement operator templates and of
    the [EnumBitSet] class template, followed by the properties its
    specification states about them.

    Conventions.
    - A value of a C++ enumeration is represented by the value of its
      underlying integer ([to_underlying]); [static_cast_enum] goes back.
    - A fixed-width integer is a [Z] together with the conversion that wraps
      it into its type ([convert], [to_storage], [to_ULL]).
    - A member function that mutates [*this] and returns a reference to it is
      a function from the old object to the new one. *)

From Stdlib Require Import ZArith Lia List Bool Btauto.
Import ListNotations.
Local Open Scope Z_scope.

(* ================================================================= *)
(** ** Part I: the model *)
(* ================================================================= *)

(** *** Integer types and enumerations *)

(** An integer type: its width in bits and its signedness. *)
Record int_type : Type := mk_int_type {
  width : Z;
  is_signed : bool
}.

Definition int_min (U : int_type) : Z :=
  if is_signed U then - 2 ^ (width U - 1) else 0.

Definition int_max (U : int_type) : Z :=
  if is_signed U then 2 ^ (width U - 1) - 1 else 2 ^ width U - 1.

Definition representable (U : int_type) (z : Z) : Prop :=
  int_min U <= z <= int_max U.

(** Conversion of a mathematical integer to the type [U]: the unique value of
    [U] congruent to it modulo [2 ^ width U]. *)
Definition convert (U : int_type) (z : Z) : Z :=
  if is_signed U
  then (z + 2 ^ (width U - 1)) mod 2 ^ width U - 2 ^ (width U - 1)
  else z mod 2 ^ width U.

(** A value of an enumeration type. [to_underlying] is the function of that
    name in the source; the constructor is [static_cast<enum_type>]. *)
Record enum_type : Type := static_cast_enum {
  to_underlying : Z
}.

(** What the templates see of an enumeration type: its underlying type and the
    trait [is_enum_incrementable], which [DECLARE_INCREMENT_DECREMENT_OPERATORS]
    specialises to [true]. *)
Record enum_traits : Type := mk_enum_traits {
  underlying_type : int_type;
  is_enum_incrementable_v : bool
}.

Definition DECLARE_INCREMENT_DECREMENT_OPERATORS (E : enum_traits) : enum_traits :=
  mk_enum_traits (underlying_type E) true.

(** *** Increment and decrement operators

    Each operator takes its operand by reference: the model returns the pair
    (new value of the operand, value of the expression).  The [enable_if]
    gate is the argument [enabled]: without a proof that the trait holds the
    operator cannot be applied.

    [to_underlying(e) + 1] is computed after integer promotion and
    [static_cast<enum_type>] converts the sum to the underlying type, hence
    [convert] around the exact sum.  For an underlying type of the rank of
    [int] or above that is signed, the language leaves the step past the
    largest value undefined; the model wraps there as well. *)

(** [operator ++(enum_type &e)]: [e = static_cast<enum_type>(to_underlying(e) + 1); return e;] *)
Definition prefix_increment (E : enum_traits)
  (enabled : is_enum_incrementable_v E = true) (e : enum_type)
  : enum_type * enum_type :=
  let e := static_cast_enum (convert (underlying_type E) (to_underlying e + 1)) in
  (e, e).

(** [operator ++(enum_type &e, int)]: [enum_type e_org = e; ++e; return e_org;] *)
Definition postfix_increment (E : enum_traits)
  (enabled : is_enum_incrementable_v E = true) (e : enum_type)
  : enum_type * enum_type :=
  let e_org := e in
  let (e, _) := prefix_increment E enabled e in
  (e, e_org).

(** [operator --(enum_type &e)]: [e = static_cast<enum_type>(to_underlying(e) - 1); return e;] *)
Definition prefix_decrement (E : enum_traits)
  (enabled : is_enum_incrementable_v E = true) (e : enum_type)
  : enum_type * enum_type :=
  let e := static_cast_enum (convert (underlying_type E) (to_underlying e - 1)) in
  (e, e).

(** [operator --(enum_type &e, int)]: [enum_type e_org = e; --e; return e_org;] *)
Definition postfix_decrement (E : enum_traits)
  (enabled : is_enum_incrementable_v E = true) (e : enum_type)
  : enum_type * enum_type :=
  let e_org := e in
  let (e, _) := prefix_decrement E enabled e in
  (e, e_org).

(** *** Enumerations as flag words: [DECLARE_ENUM_AS_BIT_SET]

    The operators the macro defines for an enumeration with underlying type
    [U].  Each converts its operands to the underlying type, applies the
    integer operator (after integer promotion, which keeps the value) and
    casts the result back. *)

(** [operator |]: [static_cast<enum_type>(to_underlying(m1) | to_underlying(m2))]. *)
Definition enum_or (U : int_type) (m1 m2 : enum_type) : enum_type :=
  static_cast_enum (convert U (Z.lor (to_underlying m1) (to_underlying m2))).

(** [operator &]: [static_cast<enum_type>(to_underlying(m1) & to_underlying(m2))]. *)
Definition enum_and (U : int_type) (m1 m2 : enum_type) : enum_type :=
  static_cast_enum (convert U (Z.land (to_underlying m1) (to_underlying m2))).

(** [operator ^]: [static_cast<enum_type>(to_underlying(m1) ^ to_underlying(m2))]. *)
Definition enum_xor (U : int_type) (m1 m2 : enum_type) : enum_type :=
  static_cast_enum (convert U (Z.lxor (to_underlying m1) (to_underlying m2))).

(** [operator ~]: [static_cast<enum_type>(~to_underlying(m))]. *)
Definition enum_not (U : int_type) (m : enum_type) : enum_type :=
  static_cast_enum (convert U (Z.lnot (to_underlying m))).

(** The compound forms take [m1] by reference: (new value of [m1], value of
    the expression).  [operator |=]: [m1 = m1 | m2; return m1;] *)
Definition enum_or_assign (U : int_type) (m1 m2 : enum_type) : enum_type * enum_type :=
  let m1 := enum_or U m1 m2 in (m1, m1).

(** [operator &=]: [m1 = m1 & m2; return m1;] *)
Definition enum_and_assign (U : int_type) (m1 m2 : enum_type) : enum_type * enum_type :=
  let m1 := enum_and U m1 m2 in (m1, m1).

(** [operator ^=]: [m1 = m1 ^ m2; return m1;] *)
Definition enum_xor_assign (U : int_type) (m1 m2 : enum_type) : enum_type * enum_type :=
  let m1 := enum_xor U m1 m2 in (m1, m1).

(** The built-in [==] of two values of one enumeration. *)
Definition enum_eqb (m1 m2 : enum_type) : bool :=
  to_underlying m1 =? to_underlying m2.

(** [DECLARE_ENUM_AS_ADDABLE]: [operator +(OtherEnumType m1, EnumType m2)] is
    [static_cast<OtherEnumType>(to_underlying(m1) + to_underlying(m2))];
    [U_other] is the underlying type of [OtherEnumType]. *)
Definition enum_add (U_other : int_type) (m1 m2 : enum_type) : enum_type :=
  static_cast_enum (convert U_other (to_underlying m1 + to_underlying m2)).

(** [HasFlag(x, y)]: [(x & y) == y]. *)
Definition HasFlag (U : int_type) (x y : enum_type) : bool :=
  enum_eqb (enum_and U x y) y.

(** [ToggleFlag(T &x, y)]: [if (HasFlag(x, y)) x &= ~y; else x |= y;]
    The result is the new value of [x]. *)
Definition ToggleFlag (U : int_type) (x y : enum_type) : enum_type :=
  if HasFlag U x y
  then fst (enum_and_assign U x (enum_not U y))
  else fst (enum_or_assign U x y).

(** The integer types in which stepping past either end is defined by the
    language: the unsigned ones, and the ones narrower than [int], whose
    arithmetic happens in [int] before the cast converts the result. *)
Definition wraps_defined (U : int_type) : Prop :=
  is_signed U = false \/ width U < 32.

(** When the sum in [operator +] is defined by the language, for an
    [OtherEnumType] over [U_other] and an addable [EnumType] over [U_enum]:
    both narrower than [int], so that the sum is an exact [int], or both
    unsigned, so that the sum is computed in an unsigned type. *)
Definition addition_defined (U_other U_enum : int_type) : Prop :=
  (width U_other < 32 /\ width U_enum < 32) \/
  (is_signed U_other = false /\ is_signed U_enum = false).

(** *** [unsigned long long] arithmetic used by the bit set *)

Definition ULL_digits : Z := 64.

Definition to_ULL (z : Z) : Z := z mod 2 ^ ULL_digits.

(** [1ULL << n].  The language defines the shift for [0 <= n < 64] only; see
    [shift_defined]. *)
Definition shl_1ULL (n : Z) : Z := to_ULL (Z.shiftl 1 n).

(** [~x] on an [unsigned long long]. *)
Definition not_ULL (x : Z) : Z := to_ULL (Z.lnot x).

(** The enum values for which [1ULL << to_underlying(value)] is defined. *)
Definition shift_defined (value : enum_type) : Prop :=
  0 <= to_underlying value < ULL_digits.

(** *** The class template [EnumBitSet<Tenum, Tstorage, Tend_value>] *)

(** The template arguments: [digits] is [std::numeric_limits<Tstorage>::digits]
    of the unsigned storage type, [Tend_value] is the last valid value + 1. *)
Record bitset_params : Type := mk_bitset_params {
  digits : Z;
  Tend_value : enum_type
}.

(** Instantiations the class is meant for: a storage type no wider than
    [unsigned long long] and an end value within its digits. *)
Definition well_formed (T : bitset_params) : Prop :=
  0 < digits T <= ULL_digits /\ 0 <= to_underlying (Tend_value T) <= digits T.

(** The default [Tend_value]: [Tenum{std::numeric_limits<Tstorage>::digits}]. *)
Definition default_params (storage_digits : Z) : bitset_params :=
  mk_bitset_params storage_digits (static_cast_enum storage_digits).

(** [std::numeric_limits<Tstorage>::max()]. *)
Definition storage_max (T : bitset_params) : Z := 2 ^ digits T - 1.

(** Conversion to [Tstorage]. *)
Definition to_storage (T : bitset_params) (z : Z) : Z := z mod 2 ^ digits T.

(** [static constexpr Tstorage MASK = max() >> (digits - to_underlying(Tend_value))]:
    the shifted value, converted to the declared type. *)
Definition MASK (T : bitset_params) : Z :=
  to_storage T (Z.shiftr (storage_max T) (digits T - to_underlying (Tend_value T))).

(** The object: its only member is [data]. *)
Record EnumBitSet : Type := mkEnumBitSet {
  data : Z
}.

(** [data] holds a value of [Tstorage]. *)
Definition in_storage (T : bitset_params) (s : EnumBitSet) : Prop :=
  0 <= data s < 2 ^ digits T.

(** The enum values below [Tend_value]. *)
Definition valid_value (T : bitset_params) (value : enum_type) : Prop :=
  0 <= to_underlying value < to_underlying (Tend_value T).

(** [EnumBitSet() : data(0) {}] *)
Definition EnumBitSet_default : EnumBitSet := mkEnumBitSet 0.

(** [Set(Tenum value)]: [this->data |= (1ULL << to_underlying(value))]. *)
Definition Set_ (T : bitset_params) (this : EnumBitSet) (value : enum_type) : EnumBitSet :=
  mkEnumBitSet (to_storage T (Z.lor (data this) (shl_1ULL (to_underlying value)))).

(** [Reset(Tenum value)]: [this->data &= ~(1ULL << to_underlying(value))]. *)
Definition Reset (T : bitset_params) (this : EnumBitSet) (value : enum_type) : EnumBitSet :=
  mkEnumBitSet
    (to_storage T (Z.land (data this) (not_ULL (shl_1ULL (to_underlying value))))).

(** [Test(Tenum value)]: [(this->data & (1ULL << to_underlying(value))) != 0]. *)
Definition Test (this : EnumBitSet) (value : enum_type) : bool :=
  negb (Z.land (data this) (shl_1ULL (to_underlying value)) =? 0).

(** [Flip(Tenum value)]: [Reset] when the value tests set, [Set] otherwise. *)
Definition Flip (T : bitset_params) (this : EnumBitSet) (value : enum_type) : EnumBitSet :=
  if Test this value then Reset T this value else Set_ T this value.

(** [EnumBitSet(Tenum value) : data(0) { this->Set(value); }] *)
Definition EnumBitSet_value (T : bitset_params) (value : enum_type) : EnumBitSet :=
  Set_ T (mkEnumBitSet 0) value.

(** [explicit EnumBitSet(Tstorage data) : data(data & MASK) {}] *)
Definition EnumBitSet_storage (T : bitset_params) (raw : Z) : EnumBitSet :=
  mkEnumBitSet (Z.land raw (MASK T)).

(** The loop [for (const Tenum &value : values) this->Set(value);]. *)
Fixpoint Set_each (T : bitset_params) (this : EnumBitSet) (values : list enum_type)
  : EnumBitSet :=
  match values with
  | [] => this
  | value :: rest => Set_each T (Set_ T this value) rest
  end.

(** [EnumBitSet(std::initializer_list<const Tenum> values) : data(0) { ... }] *)
Definition EnumBitSet_list (T : bitset_params) (values : list enum_type) : EnumBitSet :=
  Set_each T (mkEnumBitSet 0) values.

(** The specification's reading of the list constructor: construct an empty
    set and call [Set] on each listed value, in order. *)
Definition Set_in_order (T : bitset_params) (values : list enum_type) : EnumBitSet :=
  fold_left (Set_ T) values EnumBitSet_default.

(** [All(other)]: [(this->data & other.data) == other.data]. *)
Definition All (this other : EnumBitSet) : bool :=
  Z.land (data this) (data other) =? data other.

(** [Any(other)]: [(this->data & other.data) != 0]. *)
Definition Any (this other : EnumBitSet) : bool :=
  negb (Z.land (data this) (data other) =? 0).

(** [operator |]: [EnumBitSet{static_cast<Tstorage>(this->data | other.data)}]. *)
Definition op_or (T : bitset_params) (this other : EnumBitSet) : EnumBitSet :=
  EnumBitSet_storage T (to_storage T (Z.lor (data this) (data other))).

(** [operator &]: [EnumBitSet{static_cast<Tstorage>(this->data & other.data)}]. *)
Definition op_and (T : bitset_params) (this other : EnumBitSet) : EnumBitSet :=
  EnumBitSet_storage T (to_storage T (Z.land (data this) (data other))).

(** [IsValid()]: [(this->data & MASK) == this->data]. *)
Definition IsValid (T : bitset_params) (this : EnumBitSet) : bool :=
  Z.land (data this) (MASK T) =? data this.

(** [base()]: [this->data]. *)
Definition base (this : EnumBitSet) : Z := data this.

(** The defaulted [operator <=>] compares the members in declaration order;
    the only member is [data].  It also declares the defaulted [operator ==],
    and the relational operators are rewritten through [<=>]. *)
Inductive strong_ordering : Type := less | equal | greater.

Definition op_spaceship (a b : EnumBitSet) : strong_ordering :=
  match data a ?= data b with
  | Lt => less
  | Eq => equal
  | Gt => greater
  end.

Definition op_eq (a b : EnumBitSet) : bool := data a =? data b.

Definition op_lt (a b : EnumBitSet) : bool :=
  match op_spaceship a b with less => true | _ => false end.

Definition op_le (a b : EnumBitSet) : bool :=
  match op_spaceship a b with greater => false | _ => true end.

(** *** Objects reachable through the public interface

    [reachable T P s]: [s] is built by a constructor and any sequence of
    [Set], [Reset], [Flip], [operator |] and [operator &] calls, where every
    enum value that is set (by a constructor, [Set] or [Flip]) satisfies [P].
    A [Reset] argument only has to make the shift defined. *)
Inductive reachable (T : bitset_params) (P : enum_type -> Prop) : EnumBitSet -> Prop :=
| reach_default : reachable T P EnumBitSet_default
| reach_value (v : enum_type) :
    P v -> reachable T P (EnumBitSet_value T v)
| reach_list (vs : list enum_type) :
    Forall P vs -> reachable T P (EnumBitSet_list T vs)
| reach_storage (raw : Z) :
    0 <= raw < 2 ^ digits T -> reachable T P (EnumBitSet_storage T raw)
| reach_Set (s : EnumBitSet) (v : enum_type) :
    reachable T P s -> P v -> reachable T P (Set_ T s v)
| reach_Reset (s : EnumBitSet) (v : enum_type) :
    reachable T P s -> shift_defined v -> reachable T P (Reset T s v)
| reach_Flip (s : EnumBitSet) (v : enum_type) :
    reachable T P s -> P v -> reachable T P (Flip T s v)
| reach_or (a b : EnumBitSet) :
    reachable T P a -> reachable T P b -> reachable T P (op_or T a b)
| reach_and (a b : EnumBitSet) :
    reachable T P a -> reachable T P b -> reachable T P (op_and T a b).

(** *** Some underlying types *)

Definition uint8_t : int_type := mk_int_type 8 false.
Definition int8_t : int_type := mk_int_type 8 true.
Definition uint16_t : int_type := mk_int_type 16 false.

(** *** The scenario of the specification: four directions in a byte *)

Module Direction.

Definition North : enum_type := static_cast_enum 0.
Definition East : enum_type := static_cast_enum 1.
Definition South : enum_type := static_cast_enum 2.
Definition West : enum_type := static_cast_enum 3.

(** [West + 1], the end value. *)
Definition End : enum_type := static_cast_enum (to_underlying West + 1).

(** [EnumBitSet<Direction, uint8_t, End>]. *)
Definition Directions : bitset_params := mk_bitset_params 8 End.

(** An enumeration over [uint8_t] that opted into [++] and [--]. *)
Definition traits : enum_traits :=
  DECLARE_INCREMENT_DECREMENT_OPERATORS (mk_enum_traits (mk_int_type 8 false) false).

End Direction.

(* ================================================================= *)
(** ** Part II: bit-level facts about the model *)
(* ================================================================= *)

Lemma testbit_to_ULL (z i : Z) :
  Z.testbit (to_ULL z) i = (i <? ULL_digits) && Z.testbit z i.
Proof.
  unfold to_ULL. apply Z.testbit_mod_pow2. unfold ULL_digits. lia.
Qed.

Lemma testbit_one (i : Z) : Z.testbit 1 i = (i =? 0).
Proof.
  change 1 with (2 ^ 0). rewrite Z.pow2_bits_eqb by lia.
  apply Z.eqb_sym.
Qed.

(** Bit [i] of [1ULL << n]: bit [n] alone, when the shift is defined. *)
Lemma testbit_shl_1ULL (n i : Z) :
  Z.testbit (shl_1ULL n) i = (i =? n) && (0 <=? n) && (n <? ULL_digits).
Proof.
  unfold shl_1ULL. rewrite testbit_to_ULL.
  destruct (Z.ltb_spec i 0) as [Hneg | Hpos].
  - rewrite (Z.testbit_neg_r _ i) by assumption.
    rewrite andb_false_r.
    destruct (Z.eqb_spec i n), (Z.leb_spec 0 n); simpl; try reflexivity; lia.
  - rewrite Z.shiftl_spec by assumption. rewrite testbit_one.
    unfold ULL_digits.
    destruct (Z.ltb_spec i 64), (Z.eqb_spec (i - n) 0), (Z.eqb_spec i n),
      (Z.leb_spec 0 n), (Z.ltb_spec n 64); simpl; try reflexivity; lia.
Qed.

Lemma testbit_not_ULL (x i : Z) :
  0 <= i -> Z.testbit (not_ULL x) i = (i <? ULL_digits) && negb (Z.testbit x i).
Proof.
  intros Hi. unfold not_ULL. rewrite testbit_to_ULL, Z.lnot_spec by assumption.
  reflexivity.
Qed.

Lemma testbit_to_storage (T : bitset_params) (z i : Z) :
  0 <= digits T ->
  Z.testbit (to_storage T z) i = (i <? digits T) && Z.testbit z i.
Proof.
  intros Hd. unfold to_storage. now apply Z.testbit_mod_pow2.
Qed.

Lemma storage_max_ones (T : bitset_params) : storage_max T = Z.ones (digits T).
Proof.
  unfold storage_max. rewrite Z.ones_equiv. lia.
Qed.

(** With the end value within the digits, [MASK] is the [Tend_value] low bits. *)
Lemma MASK_ones (T : bitset_params) :
  well_formed T -> MASK T = Z.ones (to_underlying (Tend_value T)).
Proof.
  intros [Hd He]. unfold MASK. rewrite storage_max_ones.
  apply Z.bits_inj'. intros i Hi.
  rewrite testbit_to_storage by lia.
  rewrite Z.shiftr_spec by assumption.
  rewrite !Z.testbit_ones_nonneg by lia.
  destruct (Z.ltb_spec i (digits T)),
    (Z.ltb_spec (i + (digits T - to_underlying (Tend_value T))) (digits T)),
    (Z.ltb_spec i (to_underlying (Tend_value T))); try reflexivity; lia.
Qed.

Lemma testbit_MASK (T : bitset_params) (i : Z) :
  well_formed T -> 0 <= i ->
  Z.testbit (MASK T) i = (i <? to_underlying (Tend_value T)).
Proof.
  intros HT Hi. rewrite MASK_ones by assumption.
  apply Z.testbit_ones_nonneg; [apply HT | assumption].
Qed.

(** Equality of bit sets is equality of their words. *)
Lemma EnumBitSet_eq (a b : EnumBitSet) : data a = data b -> a = b.
Proof.
  destruct a, b. simpl. intros ->. reflexivity.
Qed.

(** Two words agree when they agree on every bit position. *)
Ltac by_bits i Hi :=
  apply Z.bits_inj'; intros i Hi.

(** Case analysis on every comparison left in a boolean goal. *)
Ltac split_comparisons :=
  repeat match goal with
    | |- context [?a <? ?b] => destruct (Z.ltb_spec a b)
    | |- context [?a <=? ?b] => destruct (Z.leb_spec a b)
    | |- context [?a =? ?b] => destruct (Z.eqb_spec a b)
    end.

Ltac bool_cases :=
  repeat match goal with
    | |- context [Z.testbit ?a ?i] => destruct (Z.testbit a i)
    end;
  simpl; try reflexivity; try lia; try discriminate.

(** The word a mutator or a test touches, bit by bit. *)
Lemma testbit_Set (T : bitset_params) (s : EnumBitSet) (v : enum_type) (i : Z) :
  0 <= digits T ->
  Z.testbit (data (Set_ T s v)) i =
  (i <? digits T) && (Z.testbit (data s) i || Z.testbit (shl_1ULL (to_underlying v)) i).
Proof.
  intros Hd. unfold Set_. simpl.
  rewrite testbit_to_storage by assumption. rewrite Z.lor_spec. reflexivity.
Qed.

Lemma testbit_Reset (T : bitset_params) (s : EnumBitSet) (v : enum_type) (i : Z) :
  0 <= digits T <= ULL_digits -> 0 <= i ->
  Z.testbit (data (Reset T s v)) i =
  (i <? digits T) && Z.testbit (data s) i
  && negb (Z.testbit (shl_1ULL (to_underlying v)) i).
Proof.
  intros Hd Hi. unfold Reset. simpl.
  rewrite testbit_to_storage by lia.
  rewrite Z.land_spec, testbit_not_ULL by assumption.
  destruct (Z.ltb_spec i (digits T)), (Z.ltb_spec i ULL_digits);
    simpl; try reflexivity; try lia.
Qed.

(** [Test] reads the bit at the position of the value. *)
Lemma Test_testbit (s : EnumBitSet) (v : enum_type) :
  shift_defined v -> Test s v = Z.testbit (data s) (to_underlying v).
Proof.
  intros [Hlo Hhi]. unfold Test.
  assert (Hand : Z.land (data s) (shl_1ULL (to_underlying v)) =
                 if Z.testbit (data s) (to_underlying v)
                 then 2 ^ to_underlying v else 0).
  { by_bits i Hi. rewrite Z.land_spec, testbit_shl_1ULL.
    destruct (Z.eqb_spec i (to_underlying v)) as [-> | Hne].
    - destruct (Z.testbit (data s) (to_underlying v)); simpl.
      + rewrite Z.pow2_bits_true by assumption.
        destruct (Z.leb_spec 0 (to_underlying v)),
          (Z.ltb_spec (to_underlying v) ULL_digits); simpl; try reflexivity; lia.
      + now rewrite Z.bits_0.
    - simpl. rewrite andb_false_r.
      destruct (Z.testbit (data s) (to_underlying v)).
      + rewrite Z.pow2_bits_false by congruence. reflexivity.
      + now rewrite Z.bits_0. }
  rewrite Hand.
  destruct (Z.testbit (data s) (to_underlying v)); simpl.
  - assert (0 < 2 ^ to_underlying v) by (apply Z.pow_pos_nonneg; lia).
    destruct (Z.eqb_spec (2 ^ to_underlying v) 0); simpl; [lia | reflexivity].
  - reflexivity.
Qed.

Lemma valid_value_shift_defined (T : bitset_params) (v : enum_type) :
  well_formed T -> valid_value T v -> shift_defined v.
Proof.
  unfold well_formed, valid_value, shift_defined. lia.
Qed.

Lemma well_formed_Directions : well_formed Direction.Directions.
Proof.
  unfold well_formed, ULL_digits. simpl. lia.
Qed.

(** The invariant [data & MASK == data], read bit by bit. *)
Lemma masked_bits (T : bitset_params) (d i : Z) :
  well_formed T -> 0 <= i ->
  Z.land d (MASK T) = d ->
  Z.testbit d i = Z.testbit d i && (i <? to_underlying (Tend_value T)).
Proof.
  intros HT Hi Hd.
  rewrite <- (testbit_MASK T i HT Hi), <- Z.land_spec, Hd. reflexivity.
Qed.

Lemma masked_storage (T : bitset_params) (raw : Z) :
  Z.land (data (EnumBitSet_storage T raw)) (MASK T) = data (EnumBitSet_storage T raw).
Proof.
  unfold EnumBitSet_storage. simpl.
  rewrite <- Z.land_assoc, Z.land_diag. reflexivity.
Qed.

Lemma masked_Set (T : bitset_params) (s : EnumBitSet) (v : enum_type) :
  well_formed T -> valid_value T v ->
  Z.land (data s) (MASK T) = data s ->
  Z.land (data (Set_ T s v)) (MASK T) = data (Set_ T s v).
Proof.
  intros HT Hv Hs. by_bits i Hi.
  pose proof (masked_bits T (data s) i HT Hi Hs) as Hb.
  destruct HT as [Hd He]. unfold valid_value in Hv.
  rewrite Z.land_spec, testbit_MASK by (try split; assumption).
  rewrite testbit_Set, testbit_shl_1ULL by lia.
  rewrite Hb. unfold ULL_digits.
  split_comparisons; bool_cases.
Qed.

Lemma masked_Reset (T : bitset_params) (s : EnumBitSet) (v : enum_type) :
  well_formed T ->
  Z.land (data s) (MASK T) = data s ->
  Z.land (data (Reset T s v)) (MASK T) = data (Reset T s v).
Proof.
  intros HT Hs. by_bits i Hi.
  pose proof (masked_bits T (data s) i HT Hi Hs) as Hb.
  rewrite Z.land_spec, testbit_MASK by assumption.
  destruct HT as [Hd He].
  rewrite testbit_Reset by lia.
  rewrite Hb.
  destruct (Z.testbit (shl_1ULL (to_underlying v)) i);
    split_comparisons; bool_cases.
Qed.

Lemma masked_Flip (T : bitset_params) (s : EnumBitSet) (v : enum_type) :
  well_formed T -> valid_value T v ->
  Z.land (data s) (MASK T) = data s ->
  Z.land (data (Flip T s v)) (MASK T) = data (Flip T s v).
Proof.
  intros HT Hv Hs. unfold Flip.
  destruct (Test s v).
  - now apply masked_Reset.
  - now apply masked_Set.
Qed.

Lemma masked_Set_each (T : bitset_params) (vs : list enum_type) :
  well_formed T -> Forall (valid_value T) vs ->
  forall s, Z.land (data s) (MASK T) = data s ->
  Z.land (data (Set_each T s vs)) (MASK T) = data (Set_each T s vs).
Proof.
  intros HT Hvs. induction Hvs as [| v vs Hv _ IH]; intros s Hs; simpl.
  - exact Hs.
  - apply IH. now apply masked_Set.
Qed.

(* ================================================================= *)
(** ** Part III: the properties of the specification *)
(* ================================================================= *)

(** *** The masking invariant *)

(** C1, as stated, fails: [Set] stores any enum value it is given.  In
    [EnumBitSet<Direction, uint8_t, End>] the object built from the single
    value [End] (underlying value 4) is reachable through the public
    interface, yet its word is [0b0001_0000], outside [MASK = 0b0000_1111]. *)
Lemma C1_counterexample :
  let s := EnumBitSet_value Direction.Directions Direction.End in
  reachable Direction.Directions shift_defined s /\
  Z.land (data s) (MASK Direction.Directions) <> data s.
Proof.
  split.
  - apply reach_value. unfold shift_defined, ULL_digits. simpl. lia.
  - vm_compute. discriminate.
Qed.

(** C1 (amended): when every enum value handed to a constructor, to [Set] or
    to [Flip] is below [Tend_value], every object reachable through the public
    interface satisfies [data & MASK == data].  The argument of [Reset] is not
    restricted. *)
Theorem C1_invariant_for_valid_values (T : bitset_params) (s : EnumBitSet) :
  well_formed T ->
  reachable T (valid_value T) s ->
  Z.land (data s) (MASK T) = data s.
Proof.
  intros HT Hs.
  induction Hs as [ | v Hv | vs Hvs | raw Hraw | s v _ IH Hv | s v _ IH _
                  | s v _ IH Hv | a b _ _ _ _ | a b _ _ _ _ ].
  - reflexivity.
  - unfold EnumBitSet_value. now apply masked_Set.
  - unfold EnumBitSet_list. now apply masked_Set_each.
  - apply masked_storage.
  - now apply masked_Set.
  - now apply masked_Reset.
  - now apply masked_Flip.
  - apply masked_storage.
  - apply masked_storage.
Qed.

(** The invariant at a set built from a list, [Set], [Reset] of the end value
    and [Flip]. *)
Lemma C1_invariant_witness :
  let T := Direction.Directions in
  let s := Flip T (Reset T (Set_ T (EnumBitSet_list T [Direction.West; Direction.East])
                              Direction.North) Direction.End) Direction.South in
  Z.land (data s) (MASK T) = data s.
Proof.
  intros T s.
  assert (Hvalid : forall n, 0 <= n < 4 -> valid_value T (static_cast_enum n)).
  { intros n Hn. unfold valid_value. simpl. lia. }
  apply (C1_invariant_for_valid_values T s well_formed_Directions).
  apply reach_Flip; [ | apply Hvalid; lia ].
  apply reach_Reset; [ | unfold shift_defined, ULL_digits; simpl; lia ].
  apply reach_Set; [ | apply Hvalid; lia ].
  apply reach_list.
  repeat constructor; apply Hvalid; lia.
Defined.

(** C2: constructing from a raw storage word [raw] and calling [base()] gives
    [raw & MASK], and [IsValid()] is true on that object; with the end value
    within the digits, the bits that survive are those of [raw] below
    [Tend_value]. *)
Theorem C2_storage_constructor_masks (T : bitset_params) (raw : Z) :
  base (EnumBitSet_storage T raw) = Z.land raw (MASK T) /\
  IsValid T (EnumBitSet_storage T raw) = true /\
  (well_formed T ->
   forall i, 0 <= i ->
     Z.testbit (base (EnumBitSet_storage T raw)) i =
     Z.testbit raw i && (i <? to_underlying (Tend_value T))).
Proof.
  split; [reflexivity | split].
  - unfold IsValid. rewrite masked_storage. apply Z.eqb_refl.
  - intros HT i Hi. unfold base, EnumBitSet_storage. simpl.
    rewrite Z.land_spec, testbit_MASK by assumption. reflexivity.
Qed.

(** C3: the scenario with directions in a byte.  [MASK] is [0b0000_1111];
    after [Set(North); Set(South)] on an empty set [base()] is
    [0b0000_0101], [Test(East)] is false, [All({North, South})] is true and
    [Any({East, West})] is false. *)
Theorem C3_direction_scenario :
  let T := Direction.Directions in
  let s := Set_ T (Set_ T EnumBitSet_default Direction.North) Direction.South in
  MASK T = 15 /\
  base s = 5 /\
  Test s Direction.East = false /\
  All s (EnumBitSet_list T [Direction.North; Direction.South]) = true /\
  Any s (EnumBitSet_list T [Direction.East; Direction.West]) = false.
Proof.
  intros T s.
  assert (Hmask : MASK T = 15) by reflexivity.
  assert (Hbase : base s = 5) by reflexivity.
  assert (Hlist1 : EnumBitSet_list T [Direction.North; Direction.South] = s)
    by reflexivity.
  assert (Hlist2 : data (EnumBitSet_list T [Direction.East; Direction.West]) = 10)
    by reflexivity.
  refine (conj Hmask (conj Hbase (conj _ (conj _ _)))).
  - unfold Test. change (data s) with (base s). rewrite Hbase. reflexivity.
  - rewrite Hlist1. unfold All. rewrite Z.land_diag. apply Z.eqb_refl.
  - unfold Any. rewrite Hlist2. change (data s) with (base s). rewrite Hbase.
    reflexivity.
Qed.

(** *** [Set], [Test] and [Flip] *)

Lemma to_underlying_inj (v w : enum_type) :
  to_underlying v = to_underlying w -> v = w.
Proof.
  destruct v, w. simpl. intros ->. reflexivity.
Qed.

(** C4: every valid value tests false on a default-constructed set; after
    [Set(v)], [Test(v)] is true and [Test(w)] is what it was for every other
    valid value [w]. *)
Theorem C4_Set_frames_Test (T : bitset_params) (s : EnumBitSet) (v : enum_type) :
  well_formed T ->
  valid_value T v ->
  Test EnumBitSet_default v = false /\
  Test (Set_ T s v) v = true /\
  (forall w, valid_value T w -> w <> v -> Test (Set_ T s v) w = Test s w).
Proof.
  intros HT Hv.
  pose proof (valid_value_shift_defined T v HT Hv) as Hsv.
  destruct HT as [Hd He]. unfold valid_value in Hv.
  split; [ | split ].
  - rewrite Test_testbit by assumption. apply Z.bits_0.
  - rewrite Test_testbit by assumption.
    rewrite testbit_Set, testbit_shl_1ULL by lia.
    unfold ULL_digits in *. split_comparisons; bool_cases.
  - intros w Hw Hne.
    assert (to_underlying w <> to_underlying v)
      by (intros Heq; apply Hne, to_underlying_inj, Heq).
    unfold valid_value in Hw.
    unfold shift_defined, ULL_digits in *.
    rewrite !Test_testbit by (unfold shift_defined, ULL_digits; lia).
    rewrite testbit_Set, testbit_shl_1ULL by lia.
    split_comparisons; bool_cases.
Qed.

(** [Set(East)] on the set holding [West]. *)
Lemma C4_Set_frames_Test_witness :
  let T := Direction.Directions in
  let s := EnumBitSet_value T Direction.West in
  Test EnumBitSet_default Direction.East = false /\
  Test (Set_ T s Direction.East) Direction.East = true /\
  Test (Set_ T s Direction.East) Direction.West = Test s Direction.West /\
  Test (Set_ T s Direction.East) Direction.North = Test s Direction.North.
Proof.
  intros T s.
  assert (Hvalid : forall n, 0 <= n < 4 -> valid_value T (static_cast_enum n))
    by (intros n Hn; unfold valid_value; simpl; lia).
  destruct (C4_Set_frames_Test T s Direction.East well_formed_Directions
              (Hvalid 1 ltac:(lia))) as (Hdefault & Hset & Hframe).
  refine (conj Hdefault (conj Hset (conj _ _))).
  - apply Hframe; [ apply Hvalid; lia | discriminate ].
  - apply Hframe; [ apply Hvalid; lia | discriminate ].
Defined.

(** C10: [Set] does not mask.  With [Tend_value] below the digits of the
    storage type, setting a value [v] with
    [Tend_value <= to_underlying v < digits] on an empty set stores bit
    [to_underlying v], which is outside [MASK], and [IsValid()] is false. *)
Theorem C10_Set_does_not_mask (T : bitset_params) (v : enum_type) :
  well_formed T ->
  to_underlying (Tend_value T) <= to_underlying v < digits T ->
  let s := Set_ T EnumBitSet_default v in
  IsValid T s = false /\
  base s = 2 ^ to_underlying v /\
  Z.testbit (base s) (to_underlying v) = true /\
  Z.testbit (MASK T) (to_underlying v) = false.
Proof.
  intros HT Hv s.
  assert (Hbit : Z.testbit (base s) (to_underlying v) = true).
  { unfold base, s. destruct HT as [Hd He].
    rewrite testbit_Set, testbit_shl_1ULL by lia.
    unfold ULL_digits in *. split_comparisons; bool_cases. }
  assert (Hmask : Z.testbit (MASK T) (to_underlying v) = false).
  { rewrite testbit_MASK by (try assumption; destruct HT; lia).
    apply Z.ltb_ge. lia. }
  refine (conj _ (conj _ (conj Hbit Hmask))).
  - unfold IsValid. apply Z.eqb_neq. intros Heq.
    assert (Hand : Z.testbit (Z.land (data s) (MASK T)) (to_underlying v) = false)
      by (rewrite Z.land_spec, Hmask; apply andb_false_r).
    rewrite Heq in Hand. unfold base in Hbit. congruence.
  - unfold base, s. apply Z.bits_inj'. intros i Hi. destruct HT as [Hd He].
    rewrite testbit_Set, testbit_shl_1ULL by lia.
    rewrite Z.pow2_bits_eqb by lia. simpl. rewrite Z.bits_0.
    unfold ULL_digits in *. split_comparisons; bool_cases.
Qed.

(** Value 6 in a byte whose end value is 4. *)
Lemma C10_Set_does_not_mask_witness :
  let T := Direction.Directions in
  let s := Set_ T EnumBitSet_default (static_cast_enum 6) in
  IsValid T s = false /\
  base s = 2 ^ 6 /\
  Z.testbit (base s) 6 = true /\
  Z.testbit (MASK T) 6 = false.
Proof.
  apply (C10_Set_does_not_mask Direction.Directions (static_cast_enum 6)
           well_formed_Directions).
  simpl. lia.
Defined.

(** A word of the storage type has no bit at or above [digits]. *)
Lemma in_storage_bits (T : bitset_params) (s : EnumBitSet) (i : Z) :
  0 <= digits T -> in_storage T s ->
  Z.testbit (data s) i = (i <? digits T) && Z.testbit (data s) i.
Proof.
  intros Hd Hs. unfold in_storage in Hs.
  rewrite <- (Z.mod_small (data s) (2 ^ digits T)) at 1 by assumption.
  now apply Z.testbit_mod_pow2.
Qed.

(** [Flip] undoes itself whenever the shift is defined, valid value or not. *)
Lemma Flip_Flip (T : bitset_params) (s : EnumBitSet) (v : enum_type) :
  0 <= digits T <= ULL_digits -> in_storage T s -> shift_defined v ->
  Flip T (Flip T s v) v = s.
Proof.
  intros Hd Hs Hv.
  assert (Hbits : forall i, Z.testbit (data s) i =
                            (i <? digits T) && Z.testbit (data s) i)
    by (intros i; apply in_storage_bits; [lia | assumption]).
  unfold shift_defined in Hv.
  unfold Flip at 2. rewrite Test_testbit by assumption.
  destruct (Z.testbit (data s) (to_underlying v)) eqn:Hbit.
  - (* the bit is set: Reset, then Set *)
    assert (Htest : Test (Reset T s v) v = false).
    { rewrite Test_testbit by assumption.
      rewrite testbit_Reset, testbit_shl_1ULL by lia.
      unfold ULL_digits in *. split_comparisons; bool_cases. }
    unfold Flip. rewrite Htest.
    apply EnumBitSet_eq. by_bits i Hi.
    rewrite testbit_Set, testbit_Reset, testbit_shl_1ULL by lia.
    rewrite (Hbits i). unfold ULL_digits in *.
    destruct (Z.eqb_spec i (to_underlying v)) as [-> | Hne].
    + rewrite Hbit. split_comparisons; bool_cases.
    + split_comparisons; bool_cases.
  - (* the bit is clear: Set, then Reset when the bit fits the storage *)
    unfold Flip. rewrite Test_testbit by assumption.
    destruct (Z.testbit (data (Set_ T s v)) (to_underlying v)) eqn:Hset;
      apply EnumBitSet_eq; by_bits i Hi.
    + rewrite testbit_Reset, testbit_Set, testbit_shl_1ULL by lia.
      rewrite (Hbits i). unfold ULL_digits in *.
      destruct (Z.eqb_spec i (to_underlying v)) as [-> | Hne].
      * rewrite Hbit. split_comparisons; bool_cases.
      * split_comparisons; bool_cases.
    + rewrite testbit_Set in Hset by lia.
      rewrite testbit_shl_1ULL in Hset. rewrite Hbit in Hset.
      rewrite !testbit_Set, testbit_shl_1ULL by lia.
      rewrite (Hbits i). unfold ULL_digits in *.
      destruct (Z.eqb_spec i (to_underlying v)) as [-> | Hne].
      * rewrite Hbit. revert Hset. split_comparisons; bool_cases.
      * split_comparisons; bool_cases.
Qed.

(** C7: for every bit set [s] and every valid value [v], [Flip(v)] applied
    twice gives [s] back. *)
Theorem C7_Flip_involutive (T : bitset_params) (s : EnumBitSet) (v : enum_type) :
  well_formed T ->
  in_storage T s ->
  valid_value T v ->
  Flip T (Flip T s v) v = s.
Proof.
  intros HT Hs Hv.
  apply Flip_Flip.
  - destruct HT as [Hd _]. lia.
  - exact Hs.
  - now apply valid_value_shift_defined with T.
Qed.

(** Flipping a value that is set and one that is not, on [{North, South}]. *)
Lemma C7_Flip_involutive_witness :
  let T := Direction.Directions in
  let s := mkEnumBitSet 5 in
  Flip T (Flip T s Direction.South) Direction.South = s /\
  Flip T (Flip T s Direction.East) Direction.East = s.
Proof.
  intros T s.
  assert (Hs : in_storage T s) by (unfold in_storage; simpl; lia).
  split.
  - apply (C7_Flip_involutive T s Direction.South well_formed_Directions Hs).
    unfold valid_value. simpl. lia.
  - apply (C7_Flip_involutive T s Direction.East well_formed_Directions Hs).
    unfold valid_value. simpl. lia.
Defined.

(** *** The initializer-list constructor *)

Lemma Set_each_fold (T : bitset_params) (values : list enum_type) :
  forall s, Set_each T s values = fold_left (Set_ T) values s.
Proof.
  induction values as [| v values IH]; intros s; simpl.
  - reflexivity.
  - apply IH.
Qed.

(** The word after the loop: the bits of the start word and of every listed
    value, cut to the storage type. *)
Lemma testbit_Set_each (T : bitset_params) (values : list enum_type) (i : Z) :
  0 <= digits T ->
  forall s,
    Z.testbit (data s) i = (i <? digits T) && Z.testbit (data s) i ->
    Z.testbit (data (Set_each T s values)) i =
    (i <? digits T) &&
    (Z.testbit (data s) i
     || existsb (fun v => Z.testbit (shl_1ULL (to_underlying v)) i) values).
Proof.
  intros Hd. induction values as [| v values IH]; intros s Hs; simpl.
  - rewrite orb_false_r. exact Hs.
  - rewrite IH.
    + rewrite testbit_Set by assumption.
      destruct (i <? digits T), (Z.testbit (data s) i),
        (Z.testbit (shl_1ULL (to_underlying v)) i); reflexivity.
    + rewrite testbit_Set by assumption.
      destruct (i <? digits T); reflexivity.
Qed.

Lemma existsb_same_elements {A : Type} (f : A -> bool) (l1 l2 : list A) :
  (forall x, In x l1 <-> In x l2) -> existsb f l1 = existsb f l2.
Proof.
  intros Hsame.
  destruct (existsb f l1) eqn:H1, (existsb f l2) eqn:H2; try reflexivity.
  - apply existsb_exists in H1. destruct H1 as (x & Hin & Hfx).
    assert (existsb f l2 = true)
      by (apply existsb_exists; exists x; split; [now apply Hsame | exact Hfx]).
    congruence.
  - apply existsb_exists in H2. destruct H2 as (x & Hin & Hfx).
    assert (existsb f l1 = true)
      by (apply existsb_exists; exists x; split; [now apply Hsame | exact Hfx]).
    congruence.
Qed.

Lemma Set_idempotent (T : bitset_params) (s : EnumBitSet) (v : enum_type) :
  0 <= digits T -> Set_ T (Set_ T s v) v = Set_ T s v.
Proof.
  intros Hd. apply EnumBitSet_eq. by_bits i Hi.
  rewrite !testbit_Set by assumption.
  destruct (i <? digits T), (Z.testbit (data s) i),
    (Z.testbit (shl_1ULL (to_underlying v)) i); reflexivity.
Qed.

(** C8: the set constructed from the list [[a; b; c]] is the empty set after
    [Set(a)], [Set(b)], [Set(c)] in that order, and likewise for a list of
    any length; duplicates are harmless: [Set] of a value already set changes
    nothing, and two lists with the same elements, whatever their order and
    repetitions, construct the same set. *)
Theorem C8_list_constructor (T : bitset_params) (a b c : enum_type) :
  well_formed T ->
  EnumBitSet_list T [a; b; c] =
    Set_ T (Set_ T (Set_ T EnumBitSet_default a) b) c /\
  (forall values, EnumBitSet_list T values = Set_in_order T values) /\
  (forall s v, Set_ T (Set_ T s v) v = Set_ T s v) /\
  (forall l1 l2, (forall v, In v l1 <-> In v l2) ->
     EnumBitSet_list T l1 = EnumBitSet_list T l2).
Proof.
  intros [[Hd _] _].
  split; [ reflexivity | split; [ | split ] ].
  - intros values. unfold EnumBitSet_list, Set_in_order. apply Set_each_fold.
  - intros s v. apply Set_idempotent. lia.
  - intros l1 l2 Hsame. apply EnumBitSet_eq. by_bits i Hi.
    unfold EnumBitSet_list.
    rewrite !testbit_Set_each by (simpl; rewrite ?Z.bits_0, ?andb_false_r; lia || reflexivity).
    f_equal. f_equal. now apply existsb_same_elements.
Qed.

(** The list [[West; North; West]]. *)
Lemma C8_list_constructor_witness :
  let T := Direction.Directions in
  EnumBitSet_list T [Direction.West; Direction.North; Direction.West] =
    Set_ T (Set_ T (Set_ T EnumBitSet_default Direction.West) Direction.North)
      Direction.West /\
  EnumBitSet_list T [Direction.West; Direction.North; Direction.West] =
    EnumBitSet_list T [Direction.North; Direction.West].
Proof.
  intros T.
  destruct (C8_list_constructor T Direction.West Direction.North Direction.West
              well_formed_Directions) as (Hlist & _ & _ & Hsame).
  split.
  - exact Hlist.
  - apply Hsame. intros v. simpl. tauto.
Defined.

(** *** Ordering and equality *)

Lemma IsValid_masked (T : bitset_params) (s : EnumBitSet) :
  IsValid T s = true <-> Z.land (data s) (MASK T) = data s.
Proof.
  unfold IsValid. apply Z.eqb_eq.
Qed.

Lemma op_spaceship_cases (a b : EnumBitSet) :
  (op_spaceship a b = less <-> data a < data b) /\
  (op_spaceship a b = equal <-> data a = data b) /\
  (op_spaceship a b = greater <-> data b < data a).
Proof.
  unfold op_spaceship.
  destruct (Z.compare_spec (data a) (data b)) as [Heq | Hlt | Hgt].
  - repeat split; intros; try discriminate; try lia; assumption.
  - repeat split; intros; try discriminate; try lia; assumption.
  - repeat split; intros; try discriminate; try lia; assumption.
Qed.

Lemma op_lt_spec (a b : EnumBitSet) : op_lt a b = true <-> data a < data b.
Proof.
  destruct (op_spaceship_cases a b) as (Hless & Hequal & Hgreater).
  rewrite <- Hless. unfold op_lt.
  destruct (op_spaceship a b); split; intros; try reflexivity; discriminate.
Qed.

Lemma op_le_spec (a b : EnumBitSet) : op_le a b = true <-> data a <= data b.
Proof.
  destruct (op_spaceship_cases a b) as (Hless & Hequal & Hgreater).
  unfold op_le.
  destruct (op_spaceship a b) eqn:Hcmp; split; intros H; try reflexivity.
  - apply Z.lt_le_incl, Hless. reflexivity.
  - apply Z.eq_le_incl, Hequal. reflexivity.
  - discriminate.
  - assert (data b < data a) by (apply Hgreater; reflexivity). lia.
Qed.

Lemma op_eq_spec (a b : EnumBitSet) : op_eq a b = true <-> data a = data b.
Proof.
  unfold op_eq. apply Z.eqb_eq.
Qed.

(** C5, as stated, fails on the equality half: the defaulted comparison looks
    at the stored word, not at the masked one.  In
    [EnumBitSet<Direction, uint8_t, End>] the set obtained by [Set(End)] on
    an empty set and the empty set have the same word after masking, and they
    are not equal. *)
Lemma C5_counterexample :
  let T := Direction.Directions in
  let a := Set_ T EnumBitSet_default Direction.End in
  let b := EnumBitSet_default in
  reachable T shift_defined a /\
  reachable T shift_defined b /\
  Z.land (data a) (MASK T) = Z.land (data b) (MASK T) /\
  op_eq a b = false /\
  op_spaceship a b = greater.
Proof.
  intros T a b.
  assert (Ha : data a = 16) by reflexivity.
  assert (Hb : data b = 0) by reflexivity.
  split; [ | split ].
  - apply reach_Set; [ apply reach_default | ].
    unfold shift_defined, ULL_digits. simpl. lia.
  - apply reach_default.
  - unfold op_eq, op_spaceship. rewrite Ha, Hb.
    split; [ | split ]; reflexivity.
Qed.

(** C5 (amended): bit sets are totally ordered by their raw storage word, and
    two bit sets are equal iff their raw storage words are equal; for two
    bit sets on which [IsValid()] holds this is equality of the words after
    masking. *)
Theorem C5_order_by_storage_word (T : bitset_params) (a b c : EnumBitSet) :
  (* compared by the raw word *)
  (op_spaceship a b = less <-> data a < data b) /\
  (op_spaceship a b = equal <-> data a = data b) /\
  (op_spaceship a b = greater <-> data b < data a) /\
  (op_lt a b = true <-> data a < data b) /\
  (op_le a b = true <-> data a <= data b) /\
  (* a total order *)
  op_le a a = true /\
  (op_le a b = true -> op_le b a = true -> a = b) /\
  (op_le a b = true -> op_le b c = true -> op_le a c = true) /\
  (op_le a b = true \/ op_le b a = true) /\
  (* equality *)
  (op_eq a b = true <-> a = b) /\
  (op_eq a b = true <-> data a = data b) /\
  (IsValid T a = true -> IsValid T b = true ->
   (op_eq a b = true <-> Z.land (data a) (MASK T) = Z.land (data b) (MASK T))).
Proof.
  destruct (op_spaceship_cases a b) as (Hless & Hequal & Hgreater).
  refine (conj Hless (conj Hequal (conj Hgreater (conj (op_lt_spec a b)
           (conj (op_le_spec a b) (conj _ (conj _ (conj _ (conj _
           (conj _ (conj (op_eq_spec a b) _))))))))))).
  - apply op_le_spec. lia.
  - intros Hab Hba. apply op_le_spec in Hab, Hba.
    apply EnumBitSet_eq. lia.
  - intros Hab Hbc. apply op_le_spec in Hab, Hbc. apply op_le_spec. lia.
  - destruct (Z.le_ge_cases (data a) (data b)) as [Hab | Hba].
    + left. now apply op_le_spec.
    + right. now apply op_le_spec.
  - rewrite op_eq_spec. split.
    + apply EnumBitSet_eq.
    + intros ->. reflexivity.
  - intros Ha Hb. apply IsValid_masked in Ha, Hb.
    rewrite op_eq_spec, Ha, Hb. reflexivity.
Qed.

(** *** Union and intersection *)

Lemma testbit_op_or (T : bitset_params) (a b : EnumBitSet) (i : Z) :
  0 <= digits T ->
  Z.testbit (data (op_or T a b)) i =
  (i <? digits T) && (Z.testbit (data a) i || Z.testbit (data b) i)
  && Z.testbit (MASK T) i.
Proof.
  intros Hd. unfold op_or, EnumBitSet_storage. simpl.
  rewrite Z.land_spec, testbit_to_storage, Z.lor_spec by assumption.
  reflexivity.
Qed.

Lemma testbit_op_and (T : bitset_params) (a b : EnumBitSet) (i : Z) :
  0 <= digits T ->
  Z.testbit (data (op_and T a b)) i =
  (i <? digits T) && (Z.testbit (data a) i && Z.testbit (data b) i)
  && Z.testbit (MASK T) i.
Proof.
  intros Hd. unfold op_and, EnumBitSet_storage. simpl.
  rewrite Z.land_spec, testbit_to_storage, Z.land_spec by assumption.
  reflexivity.
Qed.

Ltac bitset_algebra Hd :=
  let i := fresh "i" in
  let Hi := fresh "Hi" in
  apply EnumBitSet_eq; by_bits i Hi;
  rewrite ?testbit_op_or, ?testbit_op_and by exact Hd;
  rewrite ?testbit_op_or, ?testbit_op_and by exact Hd;
  btauto.

(** C6, as stated, fails on absorption: the result of [operator &] is masked,
    the left operand need not be.  In [EnumBitSet<Direction, uint8_t, End>],
    with [a] the empty set after [Set(End)] and [b] the empty set,
    [(a | b) & a] is the empty set and [a] is not. *)
Lemma C6_counterexample :
  let T := Direction.Directions in
  let a := Set_ T EnumBitSet_default Direction.End in
  let b := EnumBitSet_default in
  reachable T shift_defined a /\
  reachable T shift_defined b /\
  op_and T (op_or T a b) a = EnumBitSet_default /\
  op_and T (op_or T a b) a <> a /\
  op_eq (op_and T (op_or T a b) a) a = false.
Proof.
  intros T a b.
  assert (Habsorb : op_and T (op_or T a b) a = EnumBitSet_default) by reflexivity.
  rewrite Habsorb.
  split; [ | split; [ | split; [ reflexivity | split ] ] ].
  - apply reach_Set; [ apply reach_default | ].
    unfold shift_defined, ULL_digits. simpl. lia.
  - apply reach_default.
  - intros Heq. apply (f_equal data) in Heq. vm_compute in Heq. discriminate.
  - reflexivity.
Qed.

(** C6 (amended): [operator |] and [operator &] are commutative and
    associative for arbitrary operands; [(a | b) & a] is [a] masked, so
    absorption [(a | b) & a == a] holds exactly for the [a] on which
    [IsValid()] is true. *)
Theorem C6_or_and_algebra (T : bitset_params) (a b c : EnumBitSet) :
  well_formed T ->
  op_or T a b = op_or T b a /\
  op_and T a b = op_and T b a /\
  op_or T (op_or T a b) c = op_or T a (op_or T b c) /\
  op_and T (op_and T a b) c = op_and T a (op_and T b c) /\
  (in_storage T a -> op_and T (op_or T a b) a = EnumBitSet_storage T (base a)) /\
  (op_and T (op_or T a b) a = a <-> IsValid T a = true).
Proof.
  intros HT.
  assert (Hd : 0 <= digits T) by (destruct HT as [Hd _]; lia).
  split; [ | split; [ | split; [ | split; [ | split ] ] ] ].
  - bitset_algebra Hd.
  - bitset_algebra Hd.
  - bitset_algebra Hd.
  - bitset_algebra Hd.
  - intros Ha. apply EnumBitSet_eq. by_bits i Hi.
    rewrite testbit_op_and, testbit_op_or by exact Hd.
    unfold EnumBitSet_storage, base. simpl. rewrite Z.land_spec.
    rewrite (in_storage_bits T a i Hd Ha). btauto.
  - split.
    + intros Heq. apply IsValid_masked. rewrite <- Heq. apply masked_storage.
    + intros Hvalid. apply IsValid_masked in Hvalid.
      apply EnumBitSet_eq. by_bits i Hi.
      rewrite testbit_op_and, testbit_op_or by exact Hd.
      rewrite (masked_bits T (data a) i HT Hi Hvalid).
      rewrite testbit_MASK by assumption.
      destruct HT as [_ He]. split_comparisons; bool_cases.
Qed.

(** Three valid sets of directions. *)
Lemma C6_or_and_algebra_witness :
  let T := Direction.Directions in
  let a := mkEnumBitSet 5 in
  let b := mkEnumBitSet 10 in
  let c := mkEnumBitSet 12 in
  op_or T a b = op_or T b a /\
  op_and T a b = op_and T b a /\
  op_or T (op_or T a b) c = op_or T a (op_or T b c) /\
  op_and T (op_and T a b) c = op_and T a (op_and T b c) /\
  op_and T (op_or T a b) a = a.
Proof.
  intros T a b c.
  destruct (C6_or_and_algebra T a b c well_formed_Directions)
    as (Hor_comm & Hand_comm & Hor_assoc & Hand_assoc & _ & Habsorb).
  refine (conj Hor_comm (conj Hand_comm (conj Hor_assoc (conj Hand_assoc _)))).
  apply Habsorb. reflexivity.
Defined.

(** *** Increment and decrement *)

(** Converting a value the type can hold changes nothing. *)
Lemma convert_representable (U : int_type) (z : Z) :
  0 < width U -> representable U z -> convert U z = z.
Proof.
  unfold representable, int_min, int_max, convert. intros Hw Hz.
  destruct (is_signed U).
  - assert (Hpow : 2 ^ width U = 2 * 2 ^ (width U - 1)).
    { rewrite <- Z.pow_succ_r by lia. f_equal. lia. }
    rewrite Z.mod_small by lia. lia.
  - apply Z.mod_small. lia.
Qed.

(** C9: for an enumeration that opted into increment/decrement and a value
    strictly inside its declared range [[first, last]], prefix increment
    yields the next value (still in the range) and is the value of the
    expression, prefix decrement of that gives the original value back, and
    each postfix form leaves the operand as its prefix form does and yields
    the value from before. *)
Theorem C9_increment_decrement (E : enum_traits)
  (enabled : is_enum_incrementable_v E = true) (first last : Z) (e : enum_type) :
  0 < width (underlying_type E) ->
  representable (underlying_type E) first ->
  representable (underlying_type E) last ->
  first < to_underlying e < last ->
  let incremented := fst (prefix_increment E enabled e) in
  let decremented := fst (prefix_decrement E enabled e) in
  to_underlying incremented = to_underlying e + 1 /\
  to_underlying decremented = to_underlying e - 1 /\
  snd (prefix_increment E enabled e) = incremented /\
  snd (prefix_decrement E enabled e) = decremented /\
  fst (prefix_decrement E enabled incremented) = e /\
  fst (prefix_increment E enabled decremented) = e /\
  postfix_increment E enabled e = (incremented, e) /\
  postfix_decrement E enabled e = (decremented, e).
Proof.
  intros Hw Hfirst Hlast He incremented decremented.
  assert (Hinc : to_underlying incremented = to_underlying e + 1).
  { unfold incremented, prefix_increment. simpl.
    apply convert_representable; [assumption | ].
    unfold representable in *. lia. }
  assert (Hdec : to_underlying decremented = to_underlying e - 1).
  { unfold decremented, prefix_decrement. simpl.
    apply convert_representable; [assumption | ].
    unfold representable in *. lia. }
  assert (He_rep : representable (underlying_type E) (to_underlying e))
    by (unfold representable in *; lia).
  refine (conj Hinc (conj Hdec (conj eq_refl (conj eq_refl (conj _ (conj _
           (conj eq_refl eq_refl))))))).
  - apply to_underlying_inj.
    change (convert (underlying_type E) (to_underlying incremented - 1)
            = to_underlying e).
    rewrite Hinc.
    replace (to_underlying e + 1 - 1) with (to_underlying e) by lia.
    now apply convert_representable.
  - apply to_underlying_inj.
    change (convert (underlying_type E) (to_underlying decremented + 1)
            = to_underlying e).
    rewrite Hdec.
    replace (to_underlying e - 1 + 1) with (to_underlying e) by lia.
    now apply convert_representable.
Qed.

(** [East] in the range from [North] to [West]. *)
Lemma C9_increment_decrement_witness :
  let E := Direction.traits in
  let e := Direction.East in
  fst (prefix_decrement E eq_refl (fst (prefix_increment E eq_refl e))) = e /\
  postfix_increment E eq_refl e = (Direction.South, Direction.East) /\
  postfix_decrement E eq_refl e = (Direction.North, Direction.East).
Proof.
  intros E e.
  assert (Hw : 0 < width (underlying_type E)) by (simpl; lia).
  assert (Hfirst : representable (underlying_type E) 0)
    by (unfold representable, int_min, int_max; simpl; lia).
  assert (Hlast : representable (underlying_type E) 3)
    by (unfold representable, int_min, int_max; simpl; lia).
  assert (He : 0 < to_underlying e < 3) by (simpl; lia).
  destruct (C9_increment_decrement E eq_refl 0 3 e Hw Hfirst Hlast He)
    as (_ & _ & _ & _ & Hback & _ & Hpost_inc & Hpost_dec).
  refine (conj Hback (conj _ _)).
  - rewrite Hpost_inc. reflexivity.
  - rewrite Hpost_dec. reflexivity.
Defined.

(* ================================================================= *)
(** ** Part IV: further properties of the code *)
(* ================================================================= *)

(** *** [Reset], [Set] and [Flip] on one value *)

(** What [Test] sees after [Set] and after [Reset]. *)
Lemma Test_Set (T : bitset_params) (s : EnumBitSet) (v w : enum_type) :
  0 < digits T <= ULL_digits -> shift_defined v -> shift_defined w ->
  Test (Set_ T s v) w =
  (to_underlying w <? digits T) && (Test s w || (to_underlying w =? to_underlying v)).
Proof.
  intros Hd Hv Hw. rewrite !Test_testbit by assumption.
  unfold shift_defined in *.
  rewrite testbit_Set, testbit_shl_1ULL by lia.
  unfold ULL_digits in *. split_comparisons; bool_cases.
Qed.

Lemma Test_Reset (T : bitset_params) (s : EnumBitSet) (v w : enum_type) :
  0 < digits T <= ULL_digits -> shift_defined v -> shift_defined w ->
  Test (Reset T s v) w =
  (to_underlying w <? digits T) && Test s w && negb (to_underlying w =? to_underlying v).
Proof.
  intros Hd Hv Hw. rewrite !Test_testbit by assumption.
  unfold shift_defined in *.
  rewrite testbit_Reset, testbit_shl_1ULL by lia.
  unfold ULL_digits in *. split_comparisons; bool_cases.
Qed.

(** A value a storage word tests set lies below the width of the type. *)
Lemma Test_in_storage (T : bitset_params) (s : EnumBitSet) (w : enum_type) :
  0 < digits T <= ULL_digits -> in_storage T s -> shift_defined w ->
  Test s w = (to_underlying w <? digits T) && Test s w.
Proof.
  intros Hd Hs Hw. rewrite Test_testbit by assumption.
  apply in_storage_bits; [ lia | assumption ].
Qed.

(** [Reset(v)] clears [v], leaves every other value as it was, and a second
    [Reset(v)] changes nothing. *)
Theorem Reset_clears_and_frames (T : bitset_params) (s : EnumBitSet) (v : enum_type) :
  0 < digits T <= ULL_digits ->
  in_storage T s ->
  shift_defined v ->
  Test (Reset T s v) v = false /\
  (forall w, shift_defined w -> w <> v -> Test (Reset T s v) w = Test s w) /\
  Reset T (Reset T s v) v = Reset T s v.
Proof.
  intros Hd Hs Hv.
  split; [ | split ].
  - rewrite Test_Reset by assumption.
    rewrite Z.eqb_refl. apply andb_false_r.
  - intros w Hw Hne.
    assert (Hneq : to_underlying w <> to_underlying v)
      by (intros Heq; apply Hne, to_underlying_inj, Heq).
    rewrite Test_Reset by assumption.
    apply Z.eqb_neq in Hneq. rewrite Hneq, andb_true_r.
    symmetry. now apply Test_in_storage.
  - apply EnumBitSet_eq. by_bits i Hi.
    rewrite !testbit_Reset by lia.
    destruct (i <? digits T), (Z.testbit (data s) i),
      (Z.testbit (shl_1ULL (to_underlying v)) i); reflexivity.
Qed.

(** [{North, South}] after [Reset(South)], seen at [South] and at [North]. *)
Lemma Reset_clears_and_frames_witness :
  let T := Direction.Directions in
  let s := mkEnumBitSet 5 in
  Test (Reset T s Direction.South) Direction.South = false /\
  Test (Reset T s Direction.South) Direction.North = Test s Direction.North.
Proof.
  intros T s.
  assert (Hd : 0 < digits T <= ULL_digits) by (unfold ULL_digits; simpl; lia).
  assert (Hs : in_storage T s) by (unfold in_storage; simpl; lia).
  assert (Hshift : forall n, 0 <= n < 64 -> shift_defined (static_cast_enum n))
    by (intros n Hn; unfold shift_defined, ULL_digits; simpl; lia).
  destruct (Reset_clears_and_frames T s Direction.South Hd Hs (Hshift 2 ltac:(lia)))
    as (Hclear & Hframe & _).
  split.
  - exact Hclear.
  - apply Hframe; [ apply Hshift; lia | discriminate ].
Defined.

(** [Set(v)] and [Reset(v)] undo each other: [Reset] after [Set] gives the
    set back when [v] was not in it, [Set] after [Reset] when it was. *)
Theorem Set_Reset_round_trip (T : bitset_params) (s : EnumBitSet) (v : enum_type) :
  0 < digits T <= ULL_digits ->
  in_storage T s ->
  shift_defined v ->
  (Test s v = false -> Reset T (Set_ T s v) v = s) /\
  (Test s v = true -> Set_ T (Reset T s v) v = s).
Proof.
  intros Hd Hs Hv.
  assert (Hbits : forall i, Z.testbit (data s) i =
                            (i <? digits T) && Z.testbit (data s) i)
    by (intros i; apply in_storage_bits; [lia | assumption]).
  rewrite Test_testbit by assumption. unfold shift_defined in Hv.
  split; intros Hbit; apply EnumBitSet_eq; by_bits i Hi.
  - rewrite testbit_Reset, testbit_Set, testbit_shl_1ULL by lia.
    rewrite (Hbits i). unfold ULL_digits in *.
    destruct (Z.eqb_spec i (to_underlying v)) as [-> | Hne].
    + rewrite Hbit. split_comparisons; bool_cases.
    + split_comparisons; bool_cases.
  - rewrite testbit_Set, testbit_Reset, testbit_shl_1ULL by lia.
    rewrite (Hbits i). unfold ULL_digits in *.
    destruct (Z.eqb_spec i (to_underlying v)) as [-> | Hne].
    + rewrite Hbit. split_comparisons; bool_cases.
    + split_comparisons; bool_cases.
Qed.

(** [East] added to and removed from [{North, South}]; [South] removed and
    added. *)
Lemma Set_Reset_round_trip_witness :
  let T := Direction.Directions in
  let s := mkEnumBitSet 5 in
  Reset T (Set_ T s Direction.East) Direction.East = s /\
  Set_ T (Reset T s Direction.South) Direction.South = s.
Proof.
  intros T s.
  assert (Hd : 0 < digits T <= ULL_digits) by (unfold ULL_digits; simpl; lia).
  assert (Hs : in_storage T s) by (unfold in_storage; simpl; lia).
  assert (Hshift : forall n, 0 <= n < 64 -> shift_defined (static_cast_enum n))
    by (intros n Hn; unfold shift_defined, ULL_digits; simpl; lia).
  split.
  - apply (Set_Reset_round_trip T s Direction.East Hd Hs (Hshift 1 ltac:(lia))).
    reflexivity.
  - apply (Set_Reset_round_trip T s Direction.South Hd Hs (Hshift 2 ltac:(lia))).
    reflexivity.
Defined.

(** [Flip(v)] of a value that fits the storage type inverts [Test(v)] and
    leaves every other value as it was. *)
Theorem Flip_toggles_and_frames (T : bitset_params) (s : EnumBitSet) (v : enum_type) :
  0 < digits T <= ULL_digits ->
  in_storage T s ->
  0 <= to_underlying v < digits T ->
  Test (Flip T s v) v = negb (Test s v) /\
  (forall w, shift_defined w -> w <> v -> Test (Flip T s v) w = Test s w).
Proof.
  intros Hd Hs Hv.
  assert (Hsv : shift_defined v) by (unfold shift_defined; lia).
  assert (Hfit : (to_underlying v <? digits T) = true) by (apply Z.ltb_lt; lia).
  split.
  - unfold Flip. destruct (Test s v) eqn:Htest.
    + rewrite Test_Reset by assumption.
      rewrite Z.eqb_refl. apply andb_false_r.
    + rewrite Test_Set by assumption.
      rewrite Hfit, Z.eqb_refl. apply orb_true_r.
  - intros w Hw Hne.
    assert (Hneq : to_underlying w <> to_underlying v)
      by (intros Heq; apply Hne, to_underlying_inj, Heq).
    apply Z.eqb_neq in Hneq.
    rewrite (Test_in_storage T s w Hd Hs Hw).
    unfold Flip. destruct (Test s v).
    + rewrite Test_Reset by assumption. rewrite Hneq. apply andb_true_r.
    + rewrite Test_Set by assumption. rewrite Hneq, orb_false_r. reflexivity.
Qed.

(** [Flip(East)] and [Flip(South)] on [{North, South}]. *)
Lemma Flip_toggles_and_frames_witness :
  let T := Direction.Directions in
  let s := mkEnumBitSet 5 in
  Test (Flip T s Direction.East) Direction.East = negb (Test s Direction.East) /\
  Test (Flip T s Direction.South) Direction.South = negb (Test s Direction.South) /\
  Test (Flip T s Direction.South) Direction.North = Test s Direction.North.
Proof.
  intros T s.
  assert (Hd : 0 < digits T <= ULL_digits) by (unfold ULL_digits; simpl; lia).
  assert (Hs : in_storage T s) by (unfold in_storage; simpl; lia).
  destruct (Flip_toggles_and_frames T s Direction.East Hd Hs ltac:(simpl; lia))
    as (Heast & _).
  destruct (Flip_toggles_and_frames T s Direction.South Hd Hs ltac:(simpl; lia))
    as (Hsouth & Hframe).
  refine (conj Heast (conj Hsouth _)).
  apply Hframe; [ unfold shift_defined, ULL_digits; simpl; lia | discriminate ].
Defined.

(** A value at or above the width of the storage type (and below 64, so
    that the shift is defined) is never stored: [Test] is false, and [Set],
    [Reset] and [Flip] leave the set as it is. *)
Theorem value_beyond_storage_is_dropped (T : bitset_params) (s : EnumBitSet) (v : enum_type) :
  0 < digits T <= ULL_digits ->
  in_storage T s ->
  digits T <= to_underlying v < ULL_digits ->
  Test s v = false /\
  Set_ T s v = s /\
  Reset T s v = s /\
  Flip T s v = s.
Proof.
  intros Hd Hs Hv.
  assert (Hsv : shift_defined v) by (unfold shift_defined; lia).
  assert (Hbits : forall i, Z.testbit (data s) i =
                            (i <? digits T) && Z.testbit (data s) i)
    by (intros i; apply in_storage_bits; [lia | assumption]).
  assert (Htest : Test s v = false).
  { rewrite Test_testbit by assumption. rewrite Hbits.
    destruct (Z.ltb_spec (to_underlying v) (digits T)); [ lia | reflexivity ]. }
  assert (Hset : Set_ T s v = s).
  { apply EnumBitSet_eq. by_bits i Hi.
    rewrite testbit_Set, testbit_shl_1ULL by lia.
    rewrite (Hbits i). unfold ULL_digits in *. split_comparisons; bool_cases. }
  assert (Hreset : Reset T s v = s).
  { apply EnumBitSet_eq. by_bits i Hi.
    rewrite testbit_Reset, testbit_shl_1ULL by lia.
    rewrite (Hbits i). unfold ULL_digits in *. split_comparisons; bool_cases. }
  refine (conj Htest (conj Hset (conj Hreset _))).
  unfold Flip. rewrite Htest. exact Hset.
Qed.

(** Value 9 in a set stored in a byte. *)
Lemma value_beyond_storage_is_dropped_witness :
  let T := Direction.Directions in
  let s := mkEnumBitSet 5 in
  let v := static_cast_enum 9 in
  Test s v = false /\ Set_ T s v = s /\ Reset T s v = s /\ Flip T s v = s.
Proof.
  intros T s v.
  apply (value_beyond_storage_is_dropped T s v).
  - unfold ULL_digits. simpl. lia.
  - unfold in_storage. simpl. lia.
  - unfold ULL_digits. simpl. lia.
Defined.

(** *** [All] and [Any] *)

Lemma All_bits (s o : EnumBitSet) :
  All s o = true <->
  forall i, 0 <= i -> Z.testbit (data o) i = true -> Z.testbit (data s) i = true.
Proof.
  unfold All. rewrite Z.eqb_eq. split.
  - intros Heq i Hi Ho. rewrite <- Heq, Z.land_spec in Ho.
    now apply andb_prop in Ho.
  - intros Hsub. by_bits i Hi. rewrite Z.land_spec.
    destruct (Z.testbit (data o) i) eqn:Ho.
    + rewrite (Hsub i Hi Ho). reflexivity.
    + apply andb_false_r.
Qed.

(** A non-negative word other than zero has a bit set. *)
Lemma nonzero_has_bit (z : Z) :
  0 <= z -> z <> 0 -> exists i, 0 <= i /\ Z.testbit z i = true.
Proof.
  intros Hz Hnz. exists (Z.log2 z). split.
  - apply Z.log2_nonneg.
  - apply Z.bit_log2. lia.
Qed.

(** [s.All(o)] says that every value [o] holds is held by [s]. *)
Theorem All_is_inclusion (T : bitset_params) (s o : EnumBitSet) :
  0 < digits T <= ULL_digits ->
  in_storage T o ->
  All s o = true <->
  (forall v, shift_defined v -> Test o v = true -> Test s v = true).
Proof.
  intros Hd Ho. rewrite All_bits. split.
  - intros Hsub v Hv. rewrite !Test_testbit by assumption.
    apply Hsub. apply Hv.
  - intros Hsub i Hi Hbit.
    assert (Hlt : i < digits T).
    { rewrite (in_storage_bits T o i) in Hbit by (lia || assumption).
      apply andb_prop in Hbit. destruct Hbit as [Hlt _]. now apply Z.ltb_lt. }
    assert (Hv : shift_defined (static_cast_enum i))
      by (unfold shift_defined; simpl; lia).
    specialize (Hsub (static_cast_enum i) Hv).
    rewrite !Test_testbit in Hsub by assumption. simpl in Hsub. now apply Hsub.
Qed.

(** [{North, South}] holds everything [{South}] holds, and not everything
    [{East}] holds. *)
Lemma All_is_inclusion_witness :
  let T := Direction.Directions in
  (All (mkEnumBitSet 5) (mkEnumBitSet 4) = true <->
   (forall v, shift_defined v ->
      Test (mkEnumBitSet 4) v = true -> Test (mkEnumBitSet 5) v = true)) /\
  (All (mkEnumBitSet 5) (mkEnumBitSet 2) = true <->
   (forall v, shift_defined v ->
      Test (mkEnumBitSet 2) v = true -> Test (mkEnumBitSet 5) v = true)).
Proof.
  intros T.
  assert (Hd : 0 < digits T <= ULL_digits) by (unfold ULL_digits; simpl; lia).
  split.
  - apply (All_is_inclusion T (mkEnumBitSet 5) (mkEnumBitSet 4) Hd).
    unfold in_storage. simpl. lia.
  - apply (All_is_inclusion T (mkEnumBitSet 5) (mkEnumBitSet 2) Hd).
    unfold in_storage. simpl. lia.
Defined.

(** [s.Any(o)] says that some value is held by both [s] and [o]. *)
Theorem Any_is_overlap (T : bitset_params) (s o : EnumBitSet) :
  0 < digits T <= ULL_digits ->
  in_storage T o ->
  Any s o = true <->
  (exists v, shift_defined v /\ Test s v = true /\ Test o v = true).
Proof.
  intros Hd Ho. unfold Any. rewrite negb_true_iff, Z.eqb_neq. split.
  - intros Hnz.
    assert (Hnonneg : 0 <= Z.land (data s) (data o))
      by (apply Z.land_nonneg; right; apply Ho).
    destruct (nonzero_has_bit _ Hnonneg Hnz) as (i & Hi & Hbit).
    rewrite Z.land_spec in Hbit. apply andb_prop in Hbit.
    assert (Hlt : i < digits T).
    { destruct Hbit as [_ Hbit].
      rewrite (in_storage_bits T o i) in Hbit by (lia || assumption).
      apply andb_prop in Hbit. destruct Hbit as [Hlt _]. now apply Z.ltb_lt. }
    exists (static_cast_enum i).
    assert (Hv : shift_defined (static_cast_enum i))
      by (unfold shift_defined; simpl; lia).
    rewrite !Test_testbit by assumption. simpl. tauto.
  - intros (v & Hv & Hs & Hov) Hzero.
    rewrite Test_testbit in Hs, Hov by assumption.
    assert (Hbit : Z.testbit (Z.land (data s) (data o)) (to_underlying v) = true)
      by (rewrite Z.land_spec, Hs, Hov; reflexivity).
    rewrite Hzero, Z.bits_0 in Hbit. discriminate.
Qed.

(** [{North, South}] against [{South, West}]. *)
Lemma Any_is_overlap_witness :
  let T := Direction.Directions in
  Any (mkEnumBitSet 5) (mkEnumBitSet 12) = true <->
  (exists v, shift_defined v /\
     Test (mkEnumBitSet 5) v = true /\ Test (mkEnumBitSet 12) v = true).
Proof.
  intros T.
  apply (Any_is_overlap T (mkEnumBitSet 5) (mkEnumBitSet 12)).
  - unfold ULL_digits. simpl. lia.
  - unfold in_storage. simpl. lia.
Defined.

(** [All] orders the bit sets by inclusion: it is reflexive, antisymmetric
    and transitive, with the empty set below every set.  [Any] is symmetric,
    false against the empty set, and true of a set against itself exactly
    when the set is not empty. *)
Theorem All_partial_order_Any_symmetric (a b c : EnumBitSet) :
  All a a = true /\
  (All a b = true -> All b a = true -> a = b) /\
  (All a b = true -> All b c = true -> All a c = true) /\
  All a EnumBitSet_default = true /\
  Any a b = Any b a /\
  Any a EnumBitSet_default = false /\
  Any a a = negb (op_eq a EnumBitSet_default).
Proof.
  unfold All, Any, op_eq. simpl.
  rewrite Z.land_diag, Z.land_0_r, Z.eqb_refl, (Z.land_comm (data b) (data a)).
  refine (conj eq_refl (conj _ (conj _ (conj eq_refl (conj eq_refl
           (conj eq_refl eq_refl)))))).
  - rewrite !Z.eqb_eq. intros Hab Hba. apply EnumBitSet_eq. congruence.
  - rewrite !Z.eqb_eq. intros Hab Hbc.
    rewrite <- Hbc at 1. rewrite Z.land_assoc, Hab. exact Hbc.
Qed.

(** *** [operator |] and [operator &] seen through [Test] *)

(** A value is in [a | b] when it is below [Tend_value] and in [a] or in
    [b], and in [a & b] when it is below [Tend_value] and in both; a value at
    or above [Tend_value] is in neither result, whatever the operands hold. *)
Theorem Test_union_intersection (T : bitset_params) (a b : EnumBitSet) (v : enum_type) :
  well_formed T ->
  shift_defined v ->
  Test (op_or T a b) v =
    (to_underlying v <? to_underlying (Tend_value T)) && (Test a v || Test b v) /\
  Test (op_and T a b) v =
    (to_underlying v <? to_underlying (Tend_value T)) && (Test a v && Test b v).
Proof.
  intros HT Hv. rewrite !Test_testbit by assumption.
  pose proof HT as [Hd He]. unfold shift_defined in Hv.
  rewrite testbit_op_or, testbit_op_and by lia.
  rewrite testbit_MASK by (assumption || lia).
  split; split_comparisons; bool_cases.
Qed.

(** [{North, South} | {South, West}] and [&], asked for [West]. *)
Lemma Test_union_intersection_witness :
  let T := Direction.Directions in
  let a := mkEnumBitSet 5 in
  let b := mkEnumBitSet 12 in
  Test (op_or T a b) Direction.West = true /\
  Test (op_and T a b) Direction.West = false.
Proof.
  intros T a b.
  destruct (Test_union_intersection T a b Direction.West well_formed_Directions)
    as (Hor & Hand).
  - unfold shift_defined, ULL_digits. simpl. lia.
  - rewrite Hor, Hand. split; reflexivity.
Defined.

(** [operator |] and [operator &] distribute over each other for arbitrary
    operands; on an operand for which [IsValid()] holds each is idempotent,
    the empty set is the unit of [|] and [(a & b) | a] is [a]; the empty set
    annihilates [&]. *)
Theorem union_intersection_lattice (T : bitset_params) (a b c : EnumBitSet) :
  well_formed T ->
  op_and T a (op_or T b c) = op_or T (op_and T a b) (op_and T a c) /\
  op_or T a (op_and T b c) = op_and T (op_or T a b) (op_or T a c) /\
  op_and T a EnumBitSet_default = EnumBitSet_default /\
  (IsValid T a = true ->
   op_or T a a = a /\ op_and T a a = a /\
   op_or T a EnumBitSet_default = a /\
   op_or T (op_and T a b) a = a).
Proof.
  intros HT.
  assert (Hd : 0 <= digits T) by (destruct HT as [Hd _]; lia).
  split; [ | split; [ | split ] ].
  - bitset_algebra Hd.
  - bitset_algebra Hd.
  - apply EnumBitSet_eq. by_bits i Hi.
    rewrite testbit_op_and by exact Hd. simpl. rewrite Z.bits_0. btauto.
  - intros Hvalid. apply IsValid_masked in Hvalid.
    assert (Hbits : forall i, 0 <= i ->
              Z.testbit (data a) i =
              Z.testbit (data a) i && (i <? to_underlying (Tend_value T)))
      by (intros i Hi; now apply masked_bits).
    pose proof HT as [_ He].
    repeat split; apply EnumBitSet_eq; by_bits i Hi;
      rewrite ?testbit_op_or, ?testbit_op_and by exact Hd;
      rewrite ?testbit_op_or, ?testbit_op_and by exact Hd;
      rewrite testbit_MASK by assumption;
      simpl; rewrite ?Z.bits_0; rewrite (Hbits i Hi);
      split_comparisons; bool_cases.
Qed.

(** Three sets of directions, the first one valid. *)
Lemma union_intersection_lattice_witness :
  let T := Direction.Directions in
  let a := mkEnumBitSet 5 in
  let b := mkEnumBitSet 12 in
  let c := mkEnumBitSet 255 in
  op_and T a (op_or T b c) = op_or T (op_and T a b) (op_and T a c) /\
  op_or T a (op_and T b c) = op_and T (op_or T a b) (op_or T a c) /\
  op_or T a a = a /\
  op_or T (op_and T a b) a = a.
Proof.
  intros T a b c.
  destruct (union_intersection_lattice T a b c well_formed_Directions)
    as (Hand_or & Hor_and & _ & Hvalid).
  destruct (Hvalid eq_refl) as (Hidem & _ & _ & Habsorb).
  exact (conj Hand_or (conj Hor_and (conj Hidem Habsorb))).
Defined.

(** *** Validity *)

(** [IsValid()] says that no value from [Tend_value] up to the width of the
    storage type is in the set; and the raw-storage constructor applied to
    [base()] gives the set back exactly when the set is valid. *)
Theorem IsValid_no_value_beyond_end (T : bitset_params) (s : EnumBitSet) :
  well_formed T ->
  in_storage T s ->
  (IsValid T s = true <->
   (forall v, to_underlying (Tend_value T) <= to_underlying v < digits T ->
      Test s v = false)) /\
  (EnumBitSet_storage T (base s) = s <-> IsValid T s = true).
Proof.
  intros HT Hs. pose proof HT as [Hd He]. split.
  - rewrite IsValid_masked. split.
    + intros Hvalid v Hv.
      rewrite Test_testbit by (unfold shift_defined; lia).
      rewrite (masked_bits T (data s) (to_underlying v) HT ltac:(lia) Hvalid).
      destruct (Z.ltb_spec (to_underlying v) (to_underlying (Tend_value T)));
        [ lia | apply andb_false_r ].
    + intros Hnone. by_bits i Hi.
      rewrite Z.land_spec, testbit_MASK by assumption.
      destruct (Z.ltb_spec i (to_underlying (Tend_value T))) as [Hlt | Hge];
        [ apply andb_true_r | ].
      rewrite andb_false_r. symmetry.
      rewrite (in_storage_bits T s i) by (lia || assumption).
      destruct (Z.ltb_spec i (digits T)) as [Hfit | Hwide]; [ | reflexivity ].
      specialize (Hnone (static_cast_enum i) ltac:(simpl; lia)).
      rewrite Test_testbit in Hnone by (unfold shift_defined; simpl; lia).
      exact Hnone.
  - rewrite IsValid_masked. unfold EnumBitSet_storage, base. split.
    + intros Heq. apply (f_equal data) in Heq. exact Heq.
    + intros Heq. apply EnumBitSet_eq. exact Heq.
Qed.

(** The word [0b0001_0101] in a byte with end value 4. *)
Lemma IsValid_no_value_beyond_end_witness :
  let T := Direction.Directions in
  let s := mkEnumBitSet 21 in
  (IsValid T s = true <->
   (forall v, 4 <= to_underlying v < 8 -> Test s v = false)) /\
  (EnumBitSet_storage T (base s) = s <-> IsValid T s = true).
Proof.
  intros T s.
  apply (IsValid_no_value_beyond_end T s well_formed_Directions).
  unfold in_storage. simpl. lia.
Defined.

(** With the default [Tend_value], the width of the storage type, [MASK] is
    the largest storage word, every storage word is valid and the
    raw-storage constructor keeps the word it is given. *)
Theorem default_end_value_masks_nothing (storage_digits : Z) (raw : Z) :
  0 < storage_digits <= ULL_digits ->
  0 <= raw < 2 ^ storage_digits ->
  let T := default_params storage_digits in
  MASK T = storage_max T /\
  base (EnumBitSet_storage T raw) = raw /\
  IsValid T (mkEnumBitSet raw) = true.
Proof.
  intros Hd Hraw T.
  assert (HT : well_formed T) by (unfold well_formed, T; simpl; lia).
  assert (Hmask : MASK T = storage_max T)
    by (rewrite MASK_ones, storage_max_ones by assumption; reflexivity).
  assert (Hland : Z.land raw (MASK T) = raw).
  { rewrite Hmask, storage_max_ones. simpl.
    rewrite Z.land_ones by lia. apply Z.mod_small. assumption. }
  refine (conj Hmask (conj Hland _)).
  apply IsValid_masked. exact Hland.
Qed.

(** A 16-bit storage type and the word [0xBEEF]. *)
Lemma default_end_value_masks_nothing_witness :
  let T := default_params 16 in
  MASK T = storage_max T /\
  base (EnumBitSet_storage T 48879) = 48879 /\
  IsValid T (mkEnumBitSet 48879) = true.
Proof.
  apply (default_end_value_masks_nothing 16 48879).
  - unfold ULL_digits. lia.
  - simpl. lia.
Defined.

(** *** Constructors seen through [Test] *)

Lemma existsb_enum_eqb (w : enum_type) (vs : list enum_type) :
  existsb (fun v => to_underlying w =? to_underlying v) vs = true <-> In w vs.
Proof.
  rewrite existsb_exists. split.
  - intros (v & Hin & Heq). apply Z.eqb_eq, to_underlying_inj in Heq.
    now subst.
  - intros Hin. exists w. split; [ assumption | apply Z.eqb_refl ].
Qed.

(** The set constructed from a list holds exactly the listed values that fit
    the storage type; the set constructed from one value holds that value
    alone. *)
Theorem list_constructor_membership (T : bitset_params)
  (vs : list enum_type) (w : enum_type) :
  0 < digits T <= ULL_digits ->
  Forall shift_defined vs ->
  shift_defined w ->
  (Test (EnumBitSet_list T vs) w = true <-> to_underlying w < digits T /\ In w vs) /\
  (forall v, shift_defined v ->
     (Test (EnumBitSet_value T v) w = true <-> to_underlying w < digits T /\ w = v)).
Proof.
  intros Hd Hvs Hw.
  assert (Hlist : forall l, Forall shift_defined l ->
            (Test (EnumBitSet_list T l) w = true <->
             to_underlying w < digits T /\ In w l)).
  { intros l Hl. rewrite Test_testbit by assumption. unfold EnumBitSet_list.
    rewrite testbit_Set_each by (simpl; rewrite ?Z.bits_0, ?andb_false_r; lia || reflexivity).
    simpl. rewrite Z.bits_0. simpl.
    rewrite andb_true_iff, Z.ltb_lt, <- existsb_enum_eqb.
    assert (Hsame : existsb (fun v => Z.testbit (shl_1ULL (to_underlying v)) (to_underlying w)) l
                    = existsb (fun v => to_underlying w =? to_underlying v) l).
    { induction Hl as [| v l Hv _ IH]; simpl; [ reflexivity | ].
      rewrite IH, testbit_shl_1ULL. unfold shift_defined, ULL_digits in *.
      f_equal. split_comparisons; bool_cases. }
    rewrite Hsame. reflexivity. }
  split.
  - now apply Hlist.
  - intros v Hv.
    change (EnumBitSet_value T v) with (EnumBitSet_list T [v]).
    rewrite Hlist by (constructor; [ assumption | constructor ]).
    simpl. intuition congruence.
Qed.

(** The list [[West; North; West]], asked for [North] and for [East]. *)
Lemma list_constructor_membership_witness :
  let T := Direction.Directions in
  let vs := [Direction.West; Direction.North; Direction.West] in
  (Test (EnumBitSet_list T vs) Direction.North = true <->
   to_underlying Direction.North < digits T /\ In Direction.North vs) /\
  (Test (EnumBitSet_list T vs) Direction.East = true <->
   to_underlying Direction.East < digits T /\ In Direction.East vs).
Proof.
  intros T vs.
  assert (Hd : 0 < digits T <= ULL_digits) by (unfold ULL_digits; simpl; lia).
  assert (Hshift : forall n, 0 <= n < 64 -> shift_defined (static_cast_enum n))
    by (intros n Hn; unfold shift_defined, ULL_digits; simpl; lia).
  assert (Hvs : Forall shift_defined vs)
    by (repeat constructor; apply Hshift; lia).
  split.
  - apply (list_constructor_membership T vs Direction.North Hd Hvs).
    apply Hshift. lia.
  - apply (list_constructor_membership T vs Direction.East Hd Hvs).
    apply Hshift. lia.
Defined.

(** [s | v], where the enum value [v] converts to a bit set through the
    single-value constructor, is [s.Set(v)] for a valid set and a valid
    value; [s & v] is [{v}] when [s] holds [v] and the empty set otherwise. *)
Theorem union_with_value_is_Set (T : bitset_params) (s : EnumBitSet) (v : enum_type) :
  well_formed T ->
  IsValid T s = true ->
  valid_value T v ->
  op_or T s (EnumBitSet_value T v) = Set_ T s v /\
  op_and T s (EnumBitSet_value T v) =
    if Test s v then EnumBitSet_value T v else EnumBitSet_default.
Proof.
  intros HT Hvalid Hv. apply IsValid_masked in Hvalid.
  pose proof (valid_value_shift_defined T v HT Hv) as Hsv.
  pose proof HT as [Hd He]. unfold valid_value in Hv.
  rewrite Test_testbit by assumption.
  split.
  - apply EnumBitSet_eq. by_bits i Hi.
    rewrite testbit_op_or by lia. unfold EnumBitSet_value.
    rewrite !testbit_Set, testbit_MASK, testbit_shl_1ULL by (assumption || lia).
    rewrite (masked_bits T (data s) i HT Hi Hvalid). simpl. rewrite Z.bits_0.
    unfold ULL_digits in *. split_comparisons; bool_cases.
  - destruct (Z.testbit (data s) (to_underlying v)) eqn:Hbit;
      apply EnumBitSet_eq; by_bits i Hi;
      rewrite testbit_op_and by lia; unfold EnumBitSet_value;
      rewrite ?testbit_Set, testbit_MASK, testbit_shl_1ULL by (assumption || lia);
      simpl; rewrite ?Z.bits_0; unfold ULL_digits in *;
      (destruct (Z.eqb_spec i (to_underlying v)) as [-> | Hne];
       [ rewrite Hbit | ]); split_comparisons; bool_cases.
Qed.

(** [{North, South} | East] and [{North, South} & South]. *)
Lemma union_with_value_is_Set_witness :
  let T := Direction.Directions in
  let s := mkEnumBitSet 5 in
  op_or T s (EnumBitSet_value T Direction.East) = Set_ T s Direction.East /\
  op_and T s (EnumBitSet_value T Direction.South) = EnumBitSet_value T Direction.South.
Proof.
  intros T s.
  destruct (union_with_value_is_Set T s Direction.East well_formed_Directions eq_refl)
    as (Hor & _); [ unfold valid_value; simpl; lia | ].
  destruct (union_with_value_is_Set T s Direction.South well_formed_Directions eq_refl)
    as (_ & Hand); [ unfold valid_value; simpl; lia | ].
  exact (conj Hor Hand).
Defined.

(** *** Flag words: bits of a converted value *)

(** The signed conversion, by cases on the sign bit of the low [width] bits. *)
Lemma convert_signed_cases (w z : Z) :
  0 < w ->
  (z + 2 ^ (w - 1)) mod 2 ^ w - 2 ^ (w - 1) =
  z mod 2 ^ w - (if Z.testbit z (w - 1) then 2 ^ w else 0).
Proof.
  intros Hw.
  assert (Hpow : 2 ^ w = 2 * 2 ^ (w - 1)).
  { rewrite <- Z.pow_succ_r by lia. f_equal. lia. }
  assert (Hh : 0 < 2 ^ (w - 1)) by (apply Z.pow_pos_nonneg; lia).
  assert (Hm : 0 <= z mod 2 ^ w < 2 ^ w) by (apply Z.mod_pos_bound; lia).
  assert (Hbit : Z.testbit z (w - 1) = (2 ^ (w - 1) <=? z mod 2 ^ w)).
  { rewrite <- (Z.mod_pow2_bits_low z w (w - 1)) by lia.
    rewrite Z.testbit_eqb by lia.
    destruct (Z.leb_spec (2 ^ (w - 1)) (z mod 2 ^ w)) as [Hge | Hlt].
    - replace (z mod 2 ^ w / 2 ^ (w - 1)) with 1; [ reflexivity | ].
      apply Z.div_unique with (r := z mod 2 ^ w - 2 ^ (w - 1)); lia.
    - rewrite Z.div_small by lia. reflexivity. }
  rewrite Hbit.
  rewrite <- (Zplus_mod_idemp_l z).
  destruct (Z.leb_spec (2 ^ (w - 1)) (z mod 2 ^ w)) as [Hge | Hlt].
  - replace ((z mod 2 ^ w + 2 ^ (w - 1)) mod 2 ^ w)
      with (z mod 2 ^ w - 2 ^ (w - 1)); [ lia | ].
    apply Z.mod_unique with (q := 1); lia.
  - rewrite Z.mod_small by lia. lia.
Qed.

(** Bit [i] of a converted value: the bit of the operand below the width;
    above it, zero for an unsigned type and the sign bit for a signed one. *)
Lemma testbit_convert (U : int_type) (z i : Z) :
  0 < width U -> 0 <= i ->
  Z.testbit (convert U z) i =
  if is_signed U
  then Z.testbit z (Z.min i (width U - 1))
  else (i <? width U) && Z.testbit z i.
Proof.
  intros Hw Hi. unfold convert. destruct (is_signed U).
  - rewrite convert_signed_cases by assumption.
    destruct (Z.testbit z (width U - 1)) eqn:Hsign.
    + (* negative: the low bits, with every bit from the width up set *)
      assert (Hlor : z mod 2 ^ width U - 2 ^ width U =
                     Z.lor (z mod 2 ^ width U) (Z.lnot (Z.ones (width U)))).
      { rewrite <- Z.lxor_lor, <- Z.add_nocarry_lxor.
        - rewrite Z.ones_equiv. unfold Z.lnot. lia.
        - by_bits j Hj. rewrite Z.land_spec, Z.lnot_spec, Z.bits_0 by assumption.
          rewrite Z.testbit_mod_pow2, Z.testbit_ones_nonneg by lia.
          destruct (j <? width U); simpl; [ apply andb_false_r | reflexivity ].
        - by_bits j Hj. rewrite Z.land_spec, Z.lnot_spec, Z.bits_0 by assumption.
          rewrite Z.testbit_mod_pow2, Z.testbit_ones_nonneg by lia.
          destruct (j <? width U); simpl; [ apply andb_false_r | reflexivity ]. }
      rewrite Hlor, Z.lor_spec, Z.lnot_spec by assumption.
      rewrite Z.testbit_mod_pow2, Z.testbit_ones_nonneg by lia.
      destruct (Z.ltb_spec i (width U)) as [Hlt | Hge]; simpl.
      * rewrite orb_false_r. f_equal. lia.
      * rewrite Z.min_r by lia. symmetry. exact Hsign.
    + rewrite Z.sub_0_r, Z.testbit_mod_pow2 by lia.
      destruct (Z.ltb_spec i (width U)) as [Hlt | Hge]; simpl.
      * destruct (Z.eq_dec i (width U - 1)) as [-> | Hne].
        -- rewrite Z.min_id. reflexivity.
        -- rewrite Z.min_l by lia. reflexivity.
      * rewrite Z.min_r by lia. symmetry. exact Hsign.
  - apply Z.testbit_mod_pow2. lia.
Qed.

(** The bits of a value the type can hold. *)
Lemma testbit_representable (U : int_type) (z i : Z) :
  0 < width U -> representable U z -> 0 <= i ->
  Z.testbit z i =
  if is_signed U
  then Z.testbit z (Z.min i (width U - 1))
  else (i <? width U) && Z.testbit z i.
Proof.
  intros Hw Hz Hi.
  rewrite <- (convert_representable U z Hw Hz) at 1.
  now apply testbit_convert.
Qed.

Lemma min_min_r (i k : Z) : Z.min (Z.min i k) k = Z.min i k.
Proof. lia. Qed.

(** Rewrites bit [i] of every operand known to be [representable] by its
    canonical form, once. *)
Ltac operand_bits U i Hw Hi :=
  repeat match goal with
    | Hx : representable U ?x |- _ =>
        try rewrite (testbit_representable U x i Hw Hx Hi);
        revert Hx
    end;
  intros.

(** Decides an equation between words built from [convert U], the bitwise
    operators and operands that are [representable] in [U]. *)
Ltac flag_word_eq U Hw :=
  let i := fresh "i" in
  let Hi := fresh "Hi" in
  let Hsg := fresh "Hsg" in
  by_bits i Hi;
  repeat (rewrite testbit_convert by (assumption || lia);
          rewrite ?Z.lor_spec, ?Z.land_spec, ?Z.lxor_spec, ?Z.ldiff_spec;
          rewrite ?Z.lnot_spec by lia);
  rewrite ?Z.lor_spec, ?Z.land_spec, ?Z.lxor_spec, ?Z.ldiff_spec;
  rewrite ?Z.lnot_spec by lia;
  rewrite ?Z.bits_0;
  operand_bits U i Hw Hi;
  destruct (is_signed U) eqn:Hsg;
  rewrite ?min_min_r;
  [ bool_cases | destruct (i <? width U); bool_cases ].

(** On operands the underlying type holds, [|], [&] and [^] give the integer
    result unchanged, and [x & ~y] clears in [x] the bits of [y]. *)
Lemma enum_or_value (U : int_type) (x y : enum_type) :
  0 < width U ->
  representable U (to_underlying x) -> representable U (to_underlying y) ->
  to_underlying (enum_or U x y) = Z.lor (to_underlying x) (to_underlying y).
Proof.
  intros Hw Hx Hy. unfold enum_or. simpl. flag_word_eq U Hw.
Qed.

Lemma enum_and_value (U : int_type) (x y : enum_type) :
  0 < width U ->
  representable U (to_underlying x) -> representable U (to_underlying y) ->
  to_underlying (enum_and U x y) = Z.land (to_underlying x) (to_underlying y).
Proof.
  intros Hw Hx Hy. unfold enum_and. simpl. flag_word_eq U Hw.
Qed.

Lemma enum_xor_value (U : int_type) (x y : enum_type) :
  0 < width U ->
  representable U (to_underlying x) -> representable U (to_underlying y) ->
  to_underlying (enum_xor U x y) = Z.lxor (to_underlying x) (to_underlying y).
Proof.
  intros Hw Hx Hy. unfold enum_xor. simpl. flag_word_eq U Hw.
Qed.

Lemma enum_and_not_value (U : int_type) (x y : enum_type) :
  0 < width U ->
  representable U (to_underlying x) -> representable U (to_underlying y) ->
  to_underlying (enum_and U x (enum_not U y)) =
  Z.ldiff (to_underlying x) (to_underlying y).
Proof.
  intros Hw Hx Hy. unfold enum_and, enum_not. simpl. flag_word_eq U Hw.
Qed.

(** A converted value is a value of the type. *)
Lemma convert_range (U : int_type) (z : Z) :
  0 < width U -> representable U (convert U z).
Proof.
  intros Hw. unfold representable, convert, int_min, int_max.
  assert (Hpow : 2 ^ width U = 2 * 2 ^ (width U - 1)).
  { rewrite <- Z.pow_succ_r by lia. f_equal. lia. }
  assert (Hh : 0 < 2 ^ (width U - 1)) by (apply Z.pow_pos_nonneg; lia).
  destruct (is_signed U).
  - pose proof (Z.mod_pos_bound (z + 2 ^ (width U - 1)) (2 ^ width U) ltac:(lia)).
    lia.
  - pose proof (Z.mod_pos_bound z (2 ^ width U) ltac:(lia)). lia.
Qed.

(** Conversion commutes with adding a constant. *)
Lemma convert_add_l (U : int_type) (z k : Z) :
  convert U (convert U z + k) = convert U (z + k).
Proof.
  unfold convert. destruct (is_signed U).
  - f_equal.
    replace ((z + 2 ^ (width U - 1)) mod 2 ^ width U - 2 ^ (width U - 1) + k
             + 2 ^ (width U - 1))
      with ((z + 2 ^ (width U - 1)) mod 2 ^ width U + k) by lia.
    rewrite Zplus_mod_idemp_l. f_equal. lia.
  - apply Zplus_mod_idemp_l.
Qed.

Lemma HasFlag_land (U : int_type) (x y : enum_type) :
  0 < width U ->
  representable U (to_underlying x) -> representable U (to_underlying y) ->
  HasFlag U x y = (Z.land (to_underlying x) (to_underlying y) =? to_underlying y).
Proof.
  intros Hw Hx Hy. unfold HasFlag, enum_eqb.
  rewrite enum_and_value by assumption. reflexivity.
Qed.

Lemma ToggleFlag_value (U : int_type) (x y : enum_type) :
  0 < width U ->
  representable U (to_underlying x) -> representable U (to_underlying y) ->
  to_underlying (ToggleFlag U x y) =
  if HasFlag U x y
  then Z.ldiff (to_underlying x) (to_underlying y)
  else Z.lor (to_underlying x) (to_underlying y).
Proof.
  intros Hw Hx Hy. unfold ToggleFlag, enum_and_assign, enum_or_assign.
  destruct (HasFlag U x y); cbv [fst].
  - now apply enum_and_not_value.
  - now apply enum_or_value.
Qed.

Lemma ToggleFlag_representable (U : int_type) (x y : enum_type) :
  0 < width U -> representable U (to_underlying (ToggleFlag U x y)).
Proof.
  intros Hw. unfold ToggleFlag, enum_and_assign, enum_or_assign.
  destruct (HasFlag U x y); cbv [fst]; apply convert_range; assumption.
Qed.

(** *** [HasFlag] and [ToggleFlag] *)

(** [HasFlag(x, y)] holds exactly when every bit of [y] is set in [x]: the
    flag without bits is always present, and [y] is present in [x | y]. *)
Theorem HasFlag_is_bit_inclusion (U : int_type) (x y : enum_type) :
  0 < width U ->
  representable U (to_underlying x) ->
  representable U (to_underlying y) ->
  (HasFlag U x y = true <->
   forall i, 0 <= i ->
     Z.testbit (to_underlying y) i = true -> Z.testbit (to_underlying x) i = true) /\
  HasFlag U x (static_cast_enum 0) = true /\
  HasFlag U (enum_or U x y) y = true.
Proof.
  intros Hw Hx Hy. split; [ | split ].
  - rewrite HasFlag_land by assumption.
    apply (All_bits (mkEnumBitSet (to_underlying x)) (mkEnumBitSet (to_underlying y))).
  - unfold HasFlag, enum_eqb, enum_and. simpl.
    rewrite Z.land_0_r, convert_representable.
    + reflexivity.
    + assumption.
    + unfold representable, int_min, int_max.
      assert (0 < 2 ^ (width U - 1)) by (apply Z.pow_pos_nonneg; lia).
      assert (0 < 2 ^ width U) by (apply Z.pow_pos_nonneg; lia).
      destruct (is_signed U); lia.
  - rewrite HasFlag_land; try assumption.
    + rewrite enum_or_value by assumption. apply Z.eqb_eq.
      by_bits i Hi. rewrite Z.land_spec, Z.lor_spec.
      destruct (Z.testbit (to_underlying x) i), (Z.testbit (to_underlying y) i);
        reflexivity.
    + apply convert_range. assumption.
Qed.

Lemma representable_uint8_t (z : Z) : 0 <= z <= 255 -> representable uint8_t z.
Proof.
  intros Hz. unfold representable, int_min, int_max. simpl. lia.
Qed.

Lemma representable_int8_t (z : Z) : -128 <= z <= 127 -> representable int8_t z.
Proof.
  intros Hz. unfold representable, int_min, int_max. simpl. lia.
Qed.

(** The flags [0b0110] and [0b0100] over [uint8_t]. *)
Lemma HasFlag_is_bit_inclusion_witness :
  let x := static_cast_enum 6 in
  let y := static_cast_enum 4 in
  (HasFlag uint8_t x y = true <->
   forall i, 0 <= i -> Z.testbit 4 i = true -> Z.testbit 6 i = true) /\
  HasFlag uint8_t x (static_cast_enum 0) = true /\
  HasFlag uint8_t (enum_or uint8_t x y) y = true.
Proof.
  intros x y.
  apply (HasFlag_is_bit_inclusion uint8_t x y).
  - simpl. lia.
  - apply representable_uint8_t. simpl. lia.
  - apply representable_uint8_t. simpl. lia.
Defined.

(** [ToggleFlag(x, y)] with a flag [y] that has a bit inverts [HasFlag(x, y)];
    with the flag without bits it leaves [x] as it is. *)
Theorem ToggleFlag_inverts_HasFlag (U : int_type) (x y : enum_type) :
  0 < width U ->
  representable U (to_underlying x) ->
  representable U (to_underlying y) ->
  (to_underlying y <> 0 -> HasFlag U (ToggleFlag U x y) y = negb (HasFlag U x y)) /\
  (to_underlying y = 0 -> ToggleFlag U x y = x).
Proof.
  intros Hw Hx Hy. split.
  - intros Hnz.
    rewrite (HasFlag_land U (ToggleFlag U x y) y Hw
               (ToggleFlag_representable U x y Hw) Hy).
    rewrite ToggleFlag_value by assumption.
    destruct (HasFlag U x y); simpl.
    + rewrite Z.land_ldiff. apply Z.eqb_neq. congruence.
    + apply Z.eqb_eq. by_bits i Hi. rewrite Z.land_spec, Z.lor_spec.
      destruct (Z.testbit (to_underlying x) i), (Z.testbit (to_underlying y) i);
        reflexivity.
  - intros Hz. apply to_underlying_inj.
    rewrite ToggleFlag_value by assumption.
    rewrite Hz, Z.ldiff_0_r, Z.lor_0_r. destruct (HasFlag U x y); reflexivity.
Qed.

(** Toggling [0b0100] in [0b0110] and in [0b0010], over [int8_t]. *)
Lemma ToggleFlag_inverts_HasFlag_witness :
  let y := static_cast_enum 4 in
  HasFlag int8_t (ToggleFlag int8_t (static_cast_enum 6) y) y = false /\
  HasFlag int8_t (ToggleFlag int8_t (static_cast_enum 2) y) y = true.
Proof.
  intros y.
  assert (Hw : 0 < width int8_t) by (simpl; lia).
  assert (Hy : representable int8_t (to_underlying y))
    by (apply representable_int8_t; simpl; lia).
  assert (Hnz : to_underlying y <> 0) by (simpl; lia).
  destruct (ToggleFlag_inverts_HasFlag int8_t (static_cast_enum 6) y Hw
              (representable_int8_t 6 ltac:(lia)) Hy) as (Hset & _).
  destruct (ToggleFlag_inverts_HasFlag int8_t (static_cast_enum 2) y Hw
              (representable_int8_t 2 ltac:(lia)) Hy) as (Hclear & _).
  split.
  - rewrite (Hset Hnz). reflexivity.
  - rewrite (Hclear Hnz). reflexivity.
Defined.

(** [ToggleFlag(x, y)] is [x ^ y], and a second [ToggleFlag] with the same
    [y] restores [x], exactly when [y] is wholly present in [x] or shares no
    bit with it.  A flag of several bits of which [x] holds some but not all
    is set by the first call and cleared whole by the second. *)
Theorem ToggleFlag_xor_and_twice (U : int_type) (x y : enum_type) :
  0 < width U ->
  representable U (to_underlying x) ->
  representable U (to_underlying y) ->
  let whole := HasFlag U x y = true \/ Z.land (to_underlying x) (to_underlying y) = 0 in
  (ToggleFlag U x y = enum_xor U x y <-> whole) /\
  (ToggleFlag U (ToggleFlag U x y) y = x <-> whole) /\
  (HasFlag U x y = false ->
   to_underlying (ToggleFlag U (ToggleFlag U x y) y) =
   Z.ldiff (to_underlying x) (to_underlying y)).
Proof.
  intros Hw Hx Hy whole. unfold whole. clear whole.
  pose proof (ToggleFlag_representable U x y Hw) as Ht.
  assert (Hxor : ToggleFlag U x y = enum_xor U x y <->
                 to_underlying (ToggleFlag U x y) =
                 Z.lxor (to_underlying x) (to_underlying y)).
  { rewrite <- (enum_xor_value U x y Hw Hx Hy). split.
    - intros ->. reflexivity.
    - apply to_underlying_inj. }
  assert (Htwice : ToggleFlag U (ToggleFlag U x y) y = x <->
                   to_underlying (ToggleFlag U (ToggleFlag U x y) y) = to_underlying x).
  { split.
    - intros ->. reflexivity.
    - apply to_underlying_inj. }
  rewrite Hxor, Htwice. clear Hxor Htwice.
  rewrite (ToggleFlag_value U (ToggleFlag U x y) y Hw Ht Hy).
  rewrite (HasFlag_land U (ToggleFlag U x y) y Hw Ht Hy).
  rewrite ToggleFlag_value by assumption.
  rewrite (HasFlag_land U x y Hw Hx Hy).
  set (a := to_underlying x). set (b := to_underlying y).
  assert (Hlor : Z.land (Z.lor a b) b = b).
  { by_bits i Hi. rewrite Z.land_spec, Z.lor_spec.
    destruct (Z.testbit a i), (Z.testbit b i); reflexivity. }
  destruct (Z.eqb_spec (Z.land a b) b) as [Hsub | Hnsub].
  - (* [y] is present: cleared, then set again *)
    assert (Hdiff : Z.ldiff a b = Z.lxor a b).
    { by_bits i Hi. rewrite Z.ldiff_spec, Z.lxor_spec.
      rewrite <- Hsub, Z.land_spec.
      destruct (Z.testbit a i), (Z.testbit b i); reflexivity. }
    assert (Hback : Z.lor (Z.ldiff a b) b = a).
    { by_bits i Hi. rewrite Z.lor_spec, Z.ldiff_spec.
      rewrite <- Hsub, Z.land_spec.
      destruct (Z.testbit a i), (Z.testbit b i); reflexivity. }
    rewrite Z.land_ldiff.
    split; [ | split ].
    + split; [ intros _; left; reflexivity | intros _; exact Hdiff ].
    + split; [ intros _; left; reflexivity | ].
      intros _. destruct (Z.eqb_spec 0 b) as [Hz | Hnz].
      * rewrite <- Hz. rewrite <- Hz in Hsub. rewrite Z.ldiff_0_r.
        apply Z.ldiff_0_r.
      * exact Hback.
    + discriminate.
  - (* [y] is not wholly present: set, then cleared whole *)
    rewrite Hlor, Z.eqb_refl.
    assert (Hclear : Z.ldiff (Z.lor a b) b = Z.ldiff a b).
    { by_bits i Hi. rewrite !Z.ldiff_spec, Z.lor_spec.
      destruct (Z.testbit a i), (Z.testbit b i); reflexivity. }
    rewrite Hclear.
    assert (Hdisjoint : Z.ldiff a b = a <-> Z.land a b = 0).
    { split; intros H.
      - rewrite <- H. apply Z.land_ldiff.
      - by_bits i Hi. rewrite Z.ldiff_spec.
        assert (Hbit : Z.testbit (Z.land a b) i = false) by (rewrite H; apply Z.bits_0).
        rewrite Z.land_spec in Hbit.
        destruct (Z.testbit a i), (Z.testbit b i); try reflexivity; discriminate. }
    assert (Hor_xor : Z.lor a b = Z.lxor a b <-> Z.land a b = 0).
    { split; intros H.
      - by_bits i Hi. rewrite Z.land_spec, Z.bits_0.
        assert (Hbit : Z.testbit (Z.lor a b) i = Z.testbit (Z.lxor a b) i)
          by (rewrite H; reflexivity).
        rewrite Z.lor_spec, Z.lxor_spec in Hbit.
        destruct (Z.testbit a i), (Z.testbit b i); try reflexivity; discriminate.
      - symmetry. now apply Z.lxor_lor. }
    split; [ | split ].
    + rewrite Hor_xor. split; [ intros H; right; exact H | ].
      intros [Habs | H]; [ discriminate | exact H ].
    + rewrite Hdisjoint. split; [ intros H; right; exact H | ].
      intros [Habs | H]; [ discriminate | exact H ].
    + intros _. reflexivity.
Qed.

(** The flag [0b011] toggled twice in [0b001], which holds half of it, and
    the flag [0b100] toggled twice in [0b110]. *)
Lemma ToggleFlag_xor_and_twice_witness :
  to_underlying (ToggleFlag uint8_t
                   (ToggleFlag uint8_t (static_cast_enum 1) (static_cast_enum 3))
                   (static_cast_enum 3)) = Z.ldiff 1 3 /\
  ToggleFlag uint8_t (ToggleFlag uint8_t (static_cast_enum 6) (static_cast_enum 4))
    (static_cast_enum 4) = static_cast_enum 6.
Proof.
  assert (Hw : 0 < width uint8_t) by (simpl; lia).
  destruct (ToggleFlag_xor_and_twice uint8_t (static_cast_enum 1) (static_cast_enum 3)
              Hw (representable_uint8_t 1 ltac:(lia)) (representable_uint8_t 3 ltac:(lia)))
    as (_ & _ & Hhalf).
  destruct (ToggleFlag_xor_and_twice uint8_t (static_cast_enum 6) (static_cast_enum 4)
              Hw (representable_uint8_t 6 ltac:(lia)) (representable_uint8_t 4 ltac:(lia)))
    as (_ & Hwhole & _).
  split.
  - apply Hhalf. reflexivity.
  - apply Hwhole. left. reflexivity.
Defined.

(** *** The flag operators as an algebra *)

Lemma representable_zero (U : int_type) : 0 < width U -> representable U 0.
Proof.
  intros Hw. unfold representable, int_min, int_max.
  assert (0 < 2 ^ (width U - 1)) by (apply Z.pow_pos_nonneg; lia).
  assert (0 < 2 ^ width U) by (apply Z.pow_pos_nonneg; lia).
  destruct (is_signed U); lia.
Qed.

(** On values of the underlying type, [~] undoes itself, turns [|] into [&]
    and back, [x ^ x] and [x & ~x] are the value without bits, and [^] twice
    with the same operand restores the first. *)
Theorem flag_operator_laws (U : int_type) (x y : enum_type) :
  0 < width U ->
  representable U (to_underlying x) ->
  representable U (to_underlying y) ->
  enum_not U (enum_not U x) = x /\
  enum_not U (enum_or U x y) = enum_and U (enum_not U x) (enum_not U y) /\
  enum_not U (enum_and U x y) = enum_or U (enum_not U x) (enum_not U y) /\
  enum_xor U x x = static_cast_enum 0 /\
  enum_and U x (enum_not U x) = static_cast_enum 0 /\
  enum_xor U (enum_xor U x y) y = x.
Proof.
  intros Hw Hx Hy.
  unfold enum_not, enum_or, enum_and, enum_xor.
  repeat match goal with |- _ /\ _ => split end;
    apply to_underlying_inj; simpl.
  - flag_word_eq U Hw.
  - flag_word_eq U Hw.
  - flag_word_eq U Hw.
  - rewrite Z.lxor_nilpotent. apply convert_representable; [ assumption | ].
    now apply representable_zero.
  - flag_word_eq U Hw.
  - flag_word_eq U Hw.
Qed.

(** The flags [0b0110] and [0b0101] over [uint8_t]. *)
Lemma flag_operator_laws_witness :
  let x := static_cast_enum 6 in
  let y := static_cast_enum 5 in
  enum_not uint8_t (enum_not uint8_t x) = x /\
  enum_not uint8_t (enum_or uint8_t x y)
    = enum_and uint8_t (enum_not uint8_t x) (enum_not uint8_t y) /\
  enum_not uint8_t (enum_and uint8_t x y)
    = enum_or uint8_t (enum_not uint8_t x) (enum_not uint8_t y) /\
  enum_xor uint8_t x x = static_cast_enum 0 /\
  enum_and uint8_t x (enum_not uint8_t x) = static_cast_enum 0 /\
  enum_xor uint8_t (enum_xor uint8_t x y) y = x.
Proof.
  intros x y.
  apply (flag_operator_laws uint8_t x y).
  - simpl. lia.
  - apply representable_uint8_t. simpl. lia.
  - apply representable_uint8_t. simpl. lia.
Defined.

(** *** Stepping past the ends, and offsets *)

Lemma convert_sub_1_add_1 (U : int_type) (z : Z) :
  convert U (convert U (z + 1) - 1) = convert U z /\
  convert U (convert U (z - 1) + 1) = convert U z.
Proof.
  split.
  - replace (convert U (z + 1) - 1) with (convert U (z + 1) + -1) by lia.
    rewrite convert_add_l. f_equal. lia.
  - rewrite convert_add_l. f_equal. lia.
Qed.

(** Where the language defines the step past an end (see [wraps_defined]),
    [++] on the largest value of the underlying type gives the smallest and
    [--] on the smallest gives the largest, and [++] and [--] undo each other
    on every value of the type, the two ends included. *)
Theorem increment_decrement_wrap (E : enum_traits)
  (enabled : is_enum_incrementable_v E = true) (e : enum_type) :
  0 < width (underlying_type E) ->
  wraps_defined (underlying_type E) ->
  representable (underlying_type E) (to_underlying e) ->
  fst (prefix_decrement E enabled (fst (prefix_increment E enabled e))) = e /\
  fst (prefix_increment E enabled (fst (prefix_decrement E enabled e))) = e /\
  (to_underlying e = int_max (underlying_type E) ->
   to_underlying (fst (prefix_increment E enabled e)) = int_min (underlying_type E)) /\
  (to_underlying e = int_min (underlying_type E) ->
   to_underlying (fst (prefix_decrement E enabled e)) = int_max (underlying_type E)).
Proof.
  intros Hw _ He.
  destruct (convert_sub_1_add_1 (underlying_type E) (to_underlying e))
    as (Hinc_dec & Hdec_inc).
  assert (Hpow : 2 ^ width (underlying_type E)
                 = 2 * 2 ^ (width (underlying_type E) - 1)).
  { rewrite <- Z.pow_succ_r by lia. f_equal. lia. }
  assert (Hh : 0 < 2 ^ (width (underlying_type E) - 1))
    by (apply Z.pow_pos_nonneg; lia).
  split; [ | split; [ | split ] ].
  - apply to_underlying_inj. unfold prefix_decrement, prefix_increment. simpl.
    rewrite Hinc_dec. now apply convert_representable.
  - apply to_underlying_inj. unfold prefix_decrement, prefix_increment. simpl.
    rewrite Hdec_inc. now apply convert_representable.
  - intros Hmax. unfold prefix_increment. simpl. rewrite Hmax.
    unfold convert, int_max, int_min.
    destruct (is_signed (underlying_type E)).
    + replace (2 ^ (width (underlying_type E) - 1) - 1 + 1
               + 2 ^ (width (underlying_type E) - 1))
        with (2 ^ width (underlying_type E)) by lia.
      rewrite Z.mod_same by lia. lia.
    + replace (2 ^ width (underlying_type E) - 1 + 1)
        with (2 ^ width (underlying_type E)) by lia.
      apply Z.mod_same. lia.
  - intros Hmin. unfold prefix_decrement. simpl. rewrite Hmin.
    unfold convert, int_max, int_min.
    destruct (is_signed (underlying_type E)).
    + replace (- 2 ^ (width (underlying_type E) - 1) - 1
               + 2 ^ (width (underlying_type E) - 1)) with (-1) by lia.
      replace (-1 mod 2 ^ width (underlying_type E))
        with (2 ^ width (underlying_type E) - 1); [ lia | ].
      apply Z.mod_unique with (q := -1); lia.
    + apply eq_sym, Z.mod_unique with (q := -1); lia.
Qed.

(** The values 255 and 0 of an enumeration over [uint8_t]. *)
Lemma increment_decrement_wrap_witness :
  let E := DECLARE_INCREMENT_DECREMENT_OPERATORS (mk_enum_traits uint8_t false) in
  let top := static_cast_enum 255 in
  let bottom := static_cast_enum 0 in
  to_underlying (fst (prefix_increment E eq_refl top)) = 0 /\
  to_underlying (fst (prefix_decrement E eq_refl bottom)) = 255 /\
  fst (prefix_decrement E eq_refl (fst (prefix_increment E eq_refl top))) = top.
Proof.
  intros E top bottom.
  assert (Hw : 0 < width (underlying_type E)) by (simpl; lia).
  assert (Hwrap : wraps_defined (underlying_type E)) by (left; reflexivity).
  destruct (increment_decrement_wrap E eq_refl top Hw Hwrap
              (representable_uint8_t 255 ltac:(lia))) as (Hback & _ & Hup & _).
  destruct (increment_decrement_wrap E eq_refl bottom Hw Hwrap
              (representable_uint8_t 0 ltac:(lia))) as (_ & _ & _ & Hdown).
  refine (conj _ (conj _ Hback)).
  - rewrite Hup; reflexivity.
  - rewrite Hdown; reflexivity.
Defined.

(** [operator +] of an addable enumeration: an offset of zero changes
    nothing, a sum that the underlying type of the result holds is the exact
    sum, and two offsets applied one after the other give the converted
    total, in either order. *)
Theorem enum_add_offsets (U U_enum : int_type) (x a b : enum_type) :
  0 < width U ->
  addition_defined U U_enum ->
  representable U (to_underlying x) ->
  representable U_enum (to_underlying a) ->
  representable U_enum (to_underlying b) ->
  (to_underlying a = 0 -> enum_add U x a = x) /\
  (representable U (to_underlying x + to_underlying a) ->
   to_underlying (enum_add U x a) = to_underlying x + to_underlying a) /\
  to_underlying (enum_add U (enum_add U x a) b) =
    convert U (to_underlying x + (to_underlying a + to_underlying b)) /\
  enum_add U (enum_add U x a) b = enum_add U (enum_add U x b) a.
Proof.
  intros Hw _ Hx _ _.
  assert (Htotal : forall p q,
            to_underlying (enum_add U (enum_add U x p) q) =
            convert U (to_underlying x + (to_underlying p + to_underlying q))).
  { intros p q. unfold enum_add. simpl. rewrite convert_add_l. f_equal. lia. }
  split; [ | split; [ | split ] ].
  - intros Hzero. apply to_underlying_inj. unfold enum_add. simpl.
    rewrite Hzero, Z.add_0_r. now apply convert_representable.
  - intros Hfits. unfold enum_add. simpl. now apply convert_representable.
  - apply Htotal.
  - apply to_underlying_inj. rewrite !Htotal. f_equal. lia.
Qed.

(** Offsets 200 and 100 added to 250 in [uint8_t], and 3 added to 4. *)
Lemma enum_add_offsets_witness :
  let x := static_cast_enum 250 in
  let a := static_cast_enum 200 in
  let b := static_cast_enum 100 in
  to_underlying (enum_add uint8_t (enum_add uint8_t x a) b) = 38 /\
  enum_add uint8_t (enum_add uint8_t x a) b = enum_add uint8_t (enum_add uint8_t x b) a /\
  to_underlying (enum_add uint8_t (static_cast_enum 4) (static_cast_enum 3)) = 7.
Proof.
  intros x a b.
  assert (Hw : 0 < width uint8_t) by (simpl; lia).
  assert (Hdef : addition_defined uint8_t uint8_t) by (right; split; reflexivity).
  destruct (enum_add_offsets uint8_t uint8_t x a b Hw Hdef
              (representable_uint8_t 250 ltac:(lia))
              (representable_uint8_t 200 ltac:(lia))
              (representable_uint8_t 100 ltac:(lia))) as (_ & _ & Htotal & Hcomm).
  destruct (enum_add_offsets uint8_t uint8_t (static_cast_enum 4) (static_cast_enum 3)
              (static_cast_enum 0) Hw Hdef
              (representable_uint8_t 4 ltac:(lia))
              (representable_uint8_t 3 ltac:(lia))
              (representable_uint8_t 0 ltac:(lia))) as (_ & Hexact & _ & _).
  refine (conj _ (conj Hcomm _)).
  - rewrite Htotal. reflexivity.
  - apply Hexact. apply representable_uint8_t. simpl. lia.
Defined.
